(** * opengraphui: the MDX blog library [src/lib/mdx.ts]

    A shallow embedding of the module that lists and loads the blog posts:
    the two zod schemas, the three string helpers ([filenameToId], [slugify],
    [getFilename]) and the two exported operations ([getPosts], [getPost]),
    followed by the properties of the module that its specification states.

    Conventions.
    - A JavaScript string is the list of its UTF-16 code units ([list N]).
    - What the module takes from its host (case conversion, numbers and
      [Array.prototype.sort], the file system, [path.join], the MDX compiler,
      the order in which promises settle) is a field of a type class; the
      general theorems hold for every host.
    - A computation that can throw returns a [result]; a computation that
      also touches the file system returns an [IO], which records the
      reads that were issued. *)

From Stdlib Require Import NArith ZArith String Ascii Lia.
From stdpp Require Import base option list gmap sorting.
From Equations Require Import Equations.

Set Default Proof Using "Type".

(** ** Strings *)

Abbreviation jsstring := (list N).

(** The code units of an ASCII literal. *)
Definition u16 (s : string) : jsstring := N_of_ascii <$> list_ascii_of_string s.
Arguments u16 s%_string.

Definition in_range (lo hi c : N) : bool := (lo <=? c)%N && (c <=? hi)%N.

(** The character class [[a-z0-9]] and the class [[^-]]. *)
Definition is_lower_alnum (c : N) : bool := in_range 97 122 c || in_range 48 57 c.
Definition not_lower_alnum (c : N) : bool := negb (is_lower_alnum c).
Definition not_hyphen (c : N) : bool := negb (c =? 45)%N.

(** Greedy match of [cls*] at the start of [s]: the matched prefix and the
    rest of the input. *)
Fixpoint span (cls : N → bool) (s : jsstring) : jsstring * jsstring :=
  match s with
  | c :: r => if cls c then let '(m, rest) := span cls r in (c :: m, rest) else ([], s)
  | [] => ([], [])
  end.

(** [str.replace(re, rep)] for a global regular expression [re = /[cls]+/g]
    and a replacement [rep] without [$] patterns: the scan moves left to
    right; at the first code unit of the class the greedy [+] consumes the
    whole run, [rep] is emitted once and the scan resumes after the run. *)
Equations? replace_plus_g (cls : N → bool) (rep s : jsstring) : jsstring
  by wf (length s) lt :=
  replace_plus_g cls rep [] := [];
  replace_plus_g cls rep (c :: r) with cls c := {
    | true := rep ++ replace_plus_g cls rep (span cls r).2;
    | false := c :: replace_plus_g cls rep r }.
Proof.
  all: simpl; try lia.
  clear replace_plus_g. apply Nat.lt_succ_r.
  induction r as [|d r IH]; simpl; [lia|].
  destruct (cls d); simpl; [|lia].
  destruct (span cls r); simpl in *. lia.
Qed.

(** [s.startsWith(pat)]. *)
Fixpoint starts_with (pat s : jsstring) : bool :=
  match pat, s with
  | [], _ => true
  | p :: pat', c :: s' => (p =? c)%N && starts_with pat' s'
  | _ :: _, [] => false
  end.

(** [s.replace(pat, rep)] for a string pattern: only the first occurrence
    of [pat] is replaced, wherever it is; [s] is returned unchanged when
    there is none. ([rep] has no [$] pattern.) *)
Fixpoint replace_first (pat rep s : jsstring) : jsstring :=
  if starts_with pat s then rep ++ drop (length pat) s
  else match s with
       | [] => []
       | c :: r => c :: replace_first pat rep r
       end.

(** [s.includes(pat)] and [s.endsWith(pat)]. *)
Fixpoint includes (pat s : jsstring) : bool :=
  starts_with pat s ||
  match s with
  | [] => false
  | _ :: r => includes pat r
  end.

Definition ends_with (pat s : jsstring) : bool :=
  starts_with (reverse pat) (reverse s).

(** [s.match(re)] for the anchored expression [re = /^[cls]*/] (no [g]
    flag): the match array, whose element 0 is the matched text, or [None]
    for JavaScript's [null]. The star matches the empty string, so the
    expression matches every input. *)
Definition match_star_anchored (cls : N → bool) (s : jsstring) : option (list jsstring) :=
  Some [(span cls s).1].

(** ** The host's case conversion *)

(** [String.prototype.toLowerCase] is the host's Unicode case conversion. *)
Class StringHost := { toLowerCase : jsstring → jsstring }.

(** ** Configuration *)

Definition blogDir : jsstring := u16 "src/blog".
Definition fileExtension : jsstring := u16 ".mdx".

(** ** JavaScript values *)

(** The numbers of a header: not-a-number and the integers. *)
Inductive number := NaN | Num (z : Z).

(** The values a parsed metadata header can hold. *)
#[warnings="-register-all"]
Inductive jsval :=
| JUndefined
| JNull
| JBool (b : bool)
| JNumber (x : number)
| JString (s : jsstring)
| JArray (items : list jsval)
| JObject (props : gmap jsstring jsval).

(** ** Errors and effects *)

(** zod's [getParsedType], restricted to [jsval]. *)
Definition parsed_type (v : jsval) : jsstring :=
  match v with
  | JUndefined => u16 "undefined"
  | JNull => u16 "null"
  | JBool _ => u16 "boolean"
  | JNumber NaN => u16 "nan"
  | JNumber (Num _) => u16 "number"
  | JString _ => u16 "string"
  | JArray _ => u16 "array"
  | JObject _ => u16 "object"
  end.

(** An [invalid_type] issue of a [ZodError]. *)
Record ZodIssue := {
  expected : jsstring;
  received : jsstring;
  path : list jsstring;
  message : jsstring;
}.

Inductive error :=
| ZodError (issues : list ZodIssue)
| HostError (reason : jsstring).

(** A computation that returns or throws. *)
Inductive result (A : Type) :=
| Ok (a : A)
| Err (e : error).
Arguments Ok {A} a.
Arguments Err {A} e.

#[global] Instance result_ret : MRet result := λ A a, Ok a.
#[global] Instance result_bind : MBind result := λ A B f m,
  match m with
  | Ok a => f a
  | Err e => Err e
  end.

Inductive fs_event :=
| ReadDir (dir : jsstring)
| ReadFile (file : jsstring).

(** A computation that also reads the file system: the reads issued, in
    order, and the outcome. *)
Record IO (A : Type) := MkIO {
  io_log : list fs_event;
  io_result : result A;
}.
Arguments MkIO {A} io_log io_result.
Arguments io_log {A} _.
Arguments io_result {A} _.

#[global] Instance IO_ret : MRet IO := λ A a, MkIO [] (Ok a).
#[global] Instance IO_bind : MBind IO := λ A B f m,
  match io_result m with
  | Ok a => MkIO (io_log m ++ io_log (f a)) (io_result (f a))
  | Err e => MkIO (io_log m) (Err e)
  end.

Definition lift {A} (r : result A) : IO A := MkIO [] r.

(** ** zod schemas *)

(** The outcome of checking a value: every issue found, or the output. *)
Definition validation (A : Type) : Type := list ZodIssue + A.

(** A schema checks a value found at a path. *)
Definition ZodType (A : Type) : Type := list jsstring → jsval → validation A.

(** The message of an [invalid_type] issue: [required_error] (or the
    default "Required") when the value is [undefined], the default
    "Expected ..., received ..." otherwise, since no schema of the module
    sets [invalid_type_error]. *)
Definition invalid_type (required_error : option jsstring) (expect : jsstring)
    (p : list jsstring) (v : jsval) : ZodIssue :=
  {| expected := expect;
     received := parsed_type v;
     path := p;
     message :=
       match v with
       | JUndefined => default (u16 "Required") required_error
       | _ => u16 "Expected " ++ expect ++ u16 ", received " ++ parsed_type v
       end |}.

(** [z.string({ required_error })]. *)
Definition z_string (required_error : option jsstring) : ZodType jsstring :=
  λ p v,
    match v with
    | JString s => inr s
    | _ => inl [invalid_type required_error (u16 "string") p v]
    end.

(** [z.optional(inner)]. *)
Definition z_optional {A} (inner : ZodType A) : ZodType (option A) :=
  λ p v,
    match v with
    | JUndefined => inr None
    | _ => match inner p v with
           | inr a => inr (Some a)
           | inl issues => inl issues
           end
    end.

(** The keys of an object schema: each key is checked, in the order of the
    shape, and the issues of all of them are collected. *)
Definition shape (A : Type) : Type := list jsstring → gmap jsstring jsval → validation A.

Definition shape_pure {A} (a : A) : shape A := λ _ _, inr a.

Definition shape_ap {A B} (f : shape (A → B)) (x : shape A) : shape B :=
  λ p props,
    match f p props, x p props with
    | inr g, inr a => inr (g a)
    | inl issues, inr _ => inl issues
    | inr _, inl issues => inl issues
    | inl issues1, inl issues2 => inl (issues1 ++ issues2)
    end.

Infix "<*>" := shape_ap (at level 61, left associativity).

(** A key of a shape: a missing key reads as [undefined]. *)
Definition key {A} (k : jsstring) (s : ZodType A) : shape A :=
  λ p props, s (p ++ [k]) (default JUndefined (props !! k)).

(** [z.object(shape, { required_error })]; unknown keys are stripped. *)
Definition z_object {A} (sh : shape A) (required_error : option jsstring) : ZodType A :=
  λ p v,
    match v with
    | JObject props => sh p props
    | _ => inl [invalid_type required_error (u16 "object") p v]
    end.

(** [schema.parse(v)]: the output, or a [ZodError] with the issues. *)
Definition parse {A} (s : ZodType A) (v : jsval) : result A :=
  match s [] v with
  | inr a => Ok a
  | inl issues => Err (ZodError issues)
  end.

(** ** Type definitions of the module *)

Module FrontMatter.
Record t := Build {
  title : jsstring;
  date : jsstring;
  description : jsstring;
  author : jsstring;
  github : option jsstring;
}.
End FrontMatter.

Module PostMeta.
Record t := Build {
  title : jsstring;
  date : jsstring;
  description : jsstring;
  author : jsstring;
  github : option jsstring;
  id : jsstring;
  slug : jsstring;
}.
End PostMeta.

(** The five keys of [frontmatterSchema], shared by the schema and by its
    extension. *)
Definition frontmatter_keys {B}
    (build : shape (jsstring → jsstring → jsstring → jsstring → option jsstring → B)) :
    shape B :=
  build
    <*> key (u16 "title") (z_string (Some (u16 "Title is required")))
    <*> key (u16 "date") (z_string (Some (u16 "Date is required")))
    <*> key (u16 "description") (z_string (Some (u16 "Description is required")))
    <*> key (u16 "author") (z_string (Some (u16 "Author is required")))
    <*> key (u16 "github") (z_optional (z_string None)).

Definition frontmatter_required_error : option jsstring := Some (u16 "Post not found").

Definition frontmatterSchema : ZodType FrontMatter.t :=
  z_object (frontmatter_keys (shape_pure FrontMatter.Build)) frontmatter_required_error.

(** [metaSchema.shape.id] and [metaSchema.shape.slug]: [z.string()]. *)
Definition metaSchema_shape_id : ZodType jsstring := z_string None.
Definition metaSchema_shape_slug : ZodType jsstring := z_string None.

(** [frontmatterSchema.extend({ id, slug })]: the keys of the base shape
    followed by the two new ones; [extend] keeps the error map of the
    object. *)
Definition metaSchema : ZodType PostMeta.t :=
  z_object
    (frontmatter_keys (shape_pure PostMeta.Build)
       <*> key (u16 "id") metaSchema_shape_id
       <*> key (u16 "slug") metaSchema_shape_slug)
    frontmatter_required_error.

(** ** Helper functions *)

Section helpers.
Context `{StringHost}.

Definition filenameToId (filename : jsstring) : jsstring :=
  replace_first fileExtension [] (toLowerCase filename).

Definition slugify (filename title : jsstring) : jsstring :=
  let id := filenameToId filename in
  let slugedTitle := replace_plus_g not_lower_alnum (u16 "-") (toLowerCase title) in
  id ++ u16 "-" ++ slugedTitle.
End helpers.

(** [m?.[0]] on the outcome of [match]. *)
Definition optional_first (m : option (list jsstring)) : jsval :=
  match m with
  | Some (x :: _) => JString x
  | _ => JUndefined
  end.

Definition getFilename (slug : jsstring) : result jsstring :=
  filename ← parse metaSchema_shape_id
                (optional_first (match_star_anchored not_hyphen slug));
  mret (filename ++ fileExtension).

(** ** Component mappings *)

(** The element kinds that have a replacement renderer; the renderers are
    opaque to the module. *)
Definition components : list jsstring :=
  u16 <$> ["h1"; "h2"; "h3"; "h4"; "p"; "a"; "strong"; "blockquote"; "ul"; "code"]%string.

(** ** What the MDX compiler takes and returns *)

Inductive rehype_plugin := rehypeSlug.

Record MDXOptions := {
  parseFrontmatter : bool;
  rehypePlugins : list rehype_plugin;
}.

Record CompileMDXArgs := {
  source : jsstring;
  options : MDXOptions;
  mdx_components : option (list jsstring);
}.

(** What [compileMDX] resolves to: the rendered body and the header as the
    compiler parsed it. *)
Record CompileMDXResult := {
  content : jsstring;
  frontmatter : jsval;
}.

(** ** Numbers *)

(** The numbers of the language, as far as the module uses them: the
    coercion of a string, subtraction, the test for not-a-number and the
    comparison [x < y]. The laws are those of the IEEE 754 doubles: a
    comparison with not-a-number is false, the other numbers are totally
    ordered (the two zeros are equal, the infinities are the ends), and the
    difference of two numbers is negative, respectively positive, exactly
    when the first is smaller, respectively greater (the difference of two
    equal infinities is not-a-number, which is neither). *)
Class Numbers := {
  double : Type;
  (** [+s] *)
  ToNumber : jsstring → double;
  (** [x - y] *)
  minus : double → double → double;
  (** [Number.isNaN(x)] *)
  is_NaN : double → bool;
  (** [x < y] *)
  number_lt : double → double → bool;
  (** [+0] *)
  zero : double;
  zero_number : is_NaN zero = false;
  number_lt_NaN_l : ∀ x y, is_NaN x = true → number_lt x y = false;
  number_lt_NaN_r : ∀ x y, is_NaN y = true → number_lt x y = false;
  number_lt_irrefl : ∀ x, number_lt x x = false;
  number_lt_trans : ∀ x y z,
    number_lt x y = true → number_lt y z = true → number_lt x z = true;
  number_lt_cotrans : ∀ x y z,
    is_NaN y = false → number_lt x z = true →
    number_lt x y = true ∨ number_lt y z = true;
  minus_negative : ∀ x y,
    is_NaN x = false → is_NaN y = false →
    number_lt (minus x y) zero = number_lt x y;
  minus_positive : ∀ x y,
    is_NaN x = false → is_NaN y = false →
    number_lt zero (minus x y) = number_lt y x;
}.

(** [x >= y]: false as soon as one side is not-a-number. *)
Definition number_ge `{Numbers} (x y : double) : bool :=
  negb (is_NaN x) && negb (is_NaN y) && negb (number_lt x y).

(** ** Sorting *)

Section comparator.
Context `{Numbers} {A : Type} (comparefn : A → A → double).

(** The comparison [Array.prototype.sort] derives from [comparefn]: a
    result that is not-a-number counts as [+0]. *)
Definition SortCompare (x y : A) : double :=
  if is_NaN (comparefn x y) then zero else comparefn x y.

(** [a <CF b], [a >CF b] and [a =CF b]: the comparison of [a] with [b] is
    negative, positive, zero. *)
Definition CF_lt (a b : A) : Prop := number_lt (SortCompare a b) zero = true.
Definition CF_gt (a b : A) : Prop := number_lt zero (SortCompare a b) = true.
Definition CF_eq (a b : A) : Prop := ¬ CF_lt a b ∧ ¬ CF_gt a b.

(** The comparison is a consistent comparator for the values of [items]:
    the conditions of ECMAScript, on the comparison that the sort
    observes. *)
Definition consistent_comparator (items : list A) : Prop :=
  ∀ a b c, a ∈ items → b ∈ items → c ∈ items →
    CF_eq a a ∧
    (CF_eq a b → CF_eq b a) ∧
    (CF_eq a b → CF_eq b c → CF_eq a c) ∧
    (CF_lt a b → CF_lt b c → CF_lt a c) ∧
    (CF_gt a b → CF_gt b c → CF_gt a c).
End comparator.

(** [xs.sort(comparefn)] is the host's: the result holds the elements of
    the array, and when the comparison is a consistent comparator for them
    no element follows one that it compares less than. The sort observes
    [comparefn] through [SortCompare] only; for a comparison that is not
    consistent the order is the host's choice. *)
Class ArraySort `{Numbers} := {
  sort : ∀ {A : Type}, (A → A → double) → list A → list A;
  sort_permutation : ∀ (A : Type) (comparefn : A → A → double) (xs : list A),
    sort comparefn xs ≡ₚ xs;
  sort_sorted : ∀ (A : Type) (comparefn : A → A → double) (xs : list A),
    consistent_comparator comparefn xs →
    StronglySorted (λ x y, ¬ CF_lt comparefn y x) (sort comparefn xs);
}.

(** ** The host: file system, paths, MDX compiler, scheduling *)

Class Runtime := {
  numbers :: Numbers;
  array :: ArraySort;
  (** [fs.readdirSync(dir)] *)
  readdirSync : jsstring → result (list jsstring);
  (** [fs.readFileSync(file, encoding)] *)
  readFileSync : jsstring → jsstring → result jsstring;
  (** [path.join(dir, name)] *)
  join : jsstring → jsstring → jsstring;
  (** [compileMDX(args)], awaited *)
  compileMDX : CompileMDXArgs → result CompileMDXResult;
  (** the order in which the promises given to [Promise.all] settle, as
      indices into the array *)
  settle_order : list nat;
}.

(** ** Promises *)

(** The reason of the first promise to reject, following the order in
    which the promises settle. *)
Fixpoint first_rejection {A} (order : list nat) (settled : list (result A)) : option error :=
  match order with
  | [] => None
  | i :: later =>
      match settled !! i with
      | Some (Err e) => Some e
      | _ => first_rejection later settled
      end
  end.

(** The values of the promises, in the order of the array, when all of
    them fulfil. *)
Fixpoint all_fulfilled {A} (settled : list (result A)) : result (list A) :=
  match settled with
  | [] => Ok []
  | Ok a :: rest =>
      match all_fulfilled rest with
      | Ok values => Ok (a :: values)
      | Err e => Err e
      end
  | Err e :: _ => Err e
  end.

(** [await Promise.all(promises)]: rejects with the reason of the first
    promise to reject, and otherwise fulfils with all the values, in the
    order of the array. *)
Definition Promise_all {A} (order : list nat) (settled : list (result A)) : result (list A) :=
  match first_rejection order settled with
  | Some e => Err e
  | None => all_fulfilled settled
  end.

(** ** The exported functions *)

Section exported.
Context `{StringHost} `{Runtime}.

Definition io_readdirSync (dir : jsstring) : IO (list jsstring) :=
  MkIO [ReadDir dir] (readdirSync dir).

Definition io_readFileSync (file encoding : jsstring) : IO jsstring :=
  MkIO [ReadFile file] (readFileSync file encoding).

(** The tasks started by [files.map(async ...)] and awaited together:
    each callback runs up to its first [await] when it is called, so the
    reads of all the files are issued, in the order of the array,
    whatever the outcome of the other tasks. *)
Definition await_all {A} (tasks : list (IO A)) : IO (list A) :=
  MkIO (concat (io_log <$> tasks)) (Promise_all settle_order (io_result <$> tasks)).

(** The object literal given to [metaSchema.parse]. *)
Definition meta_literal (fm : FrontMatter.t) (id slug : jsstring) : jsval :=
  JObject (list_to_map [
    (u16 "title", JString (FrontMatter.title fm));
    (u16 "date", JString (FrontMatter.date fm));
    (u16 "description", JString (FrontMatter.description fm));
    (u16 "author", JString (FrontMatter.author fm));
    (u16 "github", from_option JString JUndefined (FrontMatter.github fm));
    (u16 "id", JString id);
    (u16 "slug", JString slug)]).

(** The callback of [files.map] in [getPosts]. *)
Definition getPosts_file (blogDir filename : jsstring) : IO PostMeta.t :=
  source ← io_readFileSync (join blogDir filename) (u16 "utf-8");
  compiled ← lift (compileMDX {|
    source := source;
    options := {| parseFrontmatter := true; rehypePlugins := [] |};
    mdx_components := None |});
  fm ← lift (parse frontmatterSchema (frontmatter compiled));
  lift (parse metaSchema
          (meta_literal fm (filenameToId filename)
             (slugify filename (FrontMatter.title fm)))).

Definition getPosts (blogDir : jsstring) : IO (list PostMeta.t) :=
  files ← io_readdirSync blogDir;
  posts ← await_all (getPosts_file blogDir <$> files);
  mret (sort (λ a b, minus (ToNumber (PostMeta.id b)) (ToNumber (PostMeta.id a))) posts).

Definition getPost (blogDir slug : jsstring) : IO CompileMDXResult :=
  filename ← lift (getFilename slug);
  source ← io_readFileSync (join blogDir filename) (u16 "utf8");
  lift (compileMDX {|
    source := source;
    options := {| parseFrontmatter := true; rehypePlugins := [rehypeSlug] |};
    mdx_components := Some components |}).
End exported.

(** ** A host to run the module on *)

(** Case conversion of the code units below 256 (ASCII and Latin-1), which
    is the host's conversion on the strings made of them. *)
Definition lower_unit (c : N) : N :=
  if in_range 65 90 c || (in_range 192 222 c && negb (c =? 215)%N) then (c + 32)%N else c.

Definition latin1 : StringHost := {| toLowerCase := fmap lower_unit |}.

(** The numbers of the demonstration host are the integers and
    not-a-number, which hold the doubles of the ids that the examples
    coerce: a string of decimal digits is its value (exact in a double up
    to 15 digits), the empty string is 0, and a string with a letter that
    occurs in no numeral (the [a] of [a.mdx]) is not-a-number. *)
Definition is_digit (c : N) : bool := in_range 48 57 c.

Definition decimal_value (s : jsstring) : Z :=
  foldl (λ acc c, 10 * acc + (Z.of_N c - 48))%Z 0%Z s.

Definition decimal_ToNumber (s : jsstring) : number :=
  match s with
  | [] => Num 0
  | _ => if forallb is_digit s then Num (decimal_value s) else NaN
  end.

Definition integer_minus (x y : number) : number :=
  match x, y with
  | Num a, Num b => Num (a - b)
  | _, _ => NaN
  end.

Definition integer_is_NaN (x : number) : bool :=
  match x with
  | NaN => true
  | Num _ => false
  end.

Definition integer_lt (x y : number) : bool :=
  match x, y with
  | Num a, Num b => (a <? b)%Z
  | _, _ => false
  end.

#[local] Obligation Tactic := idtac.

Program Definition integers : Numbers := {|
  double := number;
  ToNumber := decimal_ToNumber;
  minus := integer_minus;
  is_NaN := integer_is_NaN;
  number_lt := integer_lt;
  zero := Num 0;
|}.
Next Obligation. done. Qed.
Next Obligation. by intros [|a] [|b]. Qed.
Next Obligation. by intros [|a] [|b]. Qed.
Next Obligation. intros [|a]; simpl; [done|]. apply Z.ltb_irrefl. Qed.
Next Obligation.
  intros [|a] [|b] [|c]; simpl; try done.
  rewrite !Z.ltb_lt. lia.
Qed.
Next Obligation.
  intros [|a] [|b] [|c]; simpl; try done.
  rewrite !Z.ltb_lt. lia.
Qed.
Next Obligation.
  intros [|a] [|b]; simpl; try done. intros _ _.
  apply eq_true_iff_eq. rewrite !Z.ltb_lt. lia.
Qed.
Next Obligation.
  intros [|a] [|b]; simpl; try done. intros _ _.
  apply eq_true_iff_eq. rewrite !Z.ltb_lt. lia.
Qed.

(** The sort of the demonstration host is a stable insertion sort. *)
Fixpoint insert_sorted `{Numbers} {A} (comparefn : A → A → double)
    (x : A) (sorted : list A) : list A :=
  match sorted with
  | [] => [x]
  | y :: rest =>
      if number_lt zero (SortCompare comparefn x y)
      then y :: insert_sorted comparefn x rest
      else x :: sorted
  end.

Definition insertion_sort `{Numbers} {A} (comparefn : A → A → double)
    (xs : list A) : list A :=
  foldr (insert_sorted comparefn) [] xs.

Program Definition insertion `{Numbers} : ArraySort := {|
  sort A := insertion_sort;
|}.
Next Obligation.
  intros ? A comparefn xs.
  assert (Hinsert : ∀ x l, insert_sorted comparefn x l ≡ₚ x :: l).
  { intros x l. induction l as [|y l IH]; simpl; [done|].
    destruct (number_lt zero (SortCompare comparefn x y)); [|done].
    rewrite IH. apply Permutation_swap. }
  induction xs as [|x xs IH]; [done|].
  unfold insertion_sort in *. simpl. by rewrite Hinsert, IH.
Qed.
Next Obligation.
  intros ? A comparefn xs Hcons.
  set (R := λ x y : A, ¬ CF_lt comparefn y x).
  assert (Hexcl : ∀ a b, CF_lt comparefn a b → CF_gt comparefn a b → False).
  { unfold CF_lt, CF_gt. intros a b Hlt Hgt.
    pose proof (number_lt_trans _ _ _ Hlt Hgt) as Hself.
    by rewrite number_lt_irrefl in Hself. }
  assert (Hcases : ∀ a b,
            CF_lt comparefn a b ∨ CF_eq comparefn a b ∨ CF_gt comparefn a b).
  { intros a b. unfold CF_eq, CF_lt, CF_gt.
    destruct (number_lt (SortCompare comparefn a b) zero);
      destruct (number_lt zero (SortCompare comparefn a b)); naive_solver. }
  assert (Hflip_lt : ∀ a b, a ∈ xs → b ∈ xs →
            CF_lt comparefn a b → CF_gt comparefn b a).
  { intros a b Ha Hb Hlt.
    destruct (Hcons a b a Ha Hb Ha) as (_ & _ & _ & Hlt_trans & _).
    destruct (Hcons a a a Ha Ha Ha) as ([Hrefl _] & _).
    destruct (Hcons b a b Hb Ha Hb) as (_ & Hsym & _).
    destruct (Hcases b a) as [Hba|[Hba|Hba]]; [| |done].
    - destruct Hrefl. by apply Hlt_trans.
    - by destruct (Hsym Hba) as [Hnot _]. }
  assert (Hflip_gt : ∀ a b, a ∈ xs → b ∈ xs →
            CF_gt comparefn a b → CF_lt comparefn b a).
  { intros a b Ha Hb Hgt.
    destruct (Hcons a b a Ha Hb Ha) as (_ & _ & _ & _ & Hgt_trans).
    destruct (Hcons a a a Ha Ha Ha) as ([_ Hrefl] & _).
    destruct (Hcons b a b Hb Ha Hb) as (_ & Hsym & _).
    destruct (Hcases b a) as [Hba|[Hba|Hba]]; [done| |].
    - by destruct (Hsym Hba) as [_ Hnot].
    - destruct Hrefl. by apply Hgt_trans. }
  assert (Hlt_eq : ∀ z x y, z ∈ xs → x ∈ xs → y ∈ xs →
            CF_lt comparefn z x → CF_eq comparefn x y → CF_lt comparefn z y).
  { intros z x y Hz Hx Hy Hzx Hxy.
    destruct (Hcons x y x Hx Hy Hx) as (_ & Hsym & _).
    destruct (Hcons z y x Hz Hy Hx) as (_ & _ & Heq_trans & _).
    destruct (Hcons y z x Hy Hz Hx) as (_ & _ & _ & Hlt_trans & _).
    destruct (Hcases z y) as [Hzy|[Hzy|Hzy]]; [done| |].
    - by destruct (Heq_trans Hzy (Hsym Hxy)) as [Hnot _].
    - pose proof (Hlt_trans (Hflip_gt z y Hz Hy Hzy) Hzx) as Hyx.
      by destruct (Hsym Hxy) as [Hnot _]. }
  assert (Hinsert_perm : ∀ x l, insert_sorted comparefn x l ≡ₚ x :: l).
  { intros x l. induction l as [|y l IH]; simpl; [done|].
    destruct (number_lt zero (SortCompare comparefn x y)); [|done].
    rewrite IH. apply Permutation_swap. }
  assert (Hinsert : ∀ x l, x ∈ xs → l ⊆ xs →
            StronglySorted R l → StronglySorted R (insert_sorted comparefn x l)).
  { intros x l Hx Hl Hsorted. induction Hsorted as [|y l Hsorted IH Hy]; simpl.
    - by repeat constructor.
    - assert (Hyxs : y ∈ xs) by (apply Hl, list_elem_of_here).
      assert (Hlxs : l ⊆ xs) by (intros z Hz; by apply Hl, list_elem_of_further).
      destruct (number_lt zero (SortCompare comparefn x y)) eqn:Hgt.
      + constructor; [by apply IH|].
        rewrite Hinsert_perm. constructor; [|done].
        intros Hlt. by apply (Hexcl x y).
      + constructor; [by constructor|].
        assert (Hxy : ¬ CF_gt comparefn x y) by (unfold CF_gt; by rewrite Hgt).
        constructor.
        * intros Hyx. by apply Hxy, Hflip_lt.
        * rewrite Forall_forall in Hy. apply Forall_forall. intros z Hz Hzx.
          apply (Hy z Hz).
          destruct (Hcons z x y (Hlxs z Hz) Hx Hyxs) as (_ & _ & _ & Hlt_trans & _).
          destruct (Hcases x y) as [Hlt|[Heq|Hgt']]; [by apply Hlt_trans| |done].
          by apply (Hlt_eq z x y); [apply Hlxs| | | |]. }
  assert (Hsort_perm : ∀ l, insertion_sort comparefn l ≡ₚ l).
  { intros l. induction l as [|x l IH]; [done|].
    unfold insertion_sort in *. simpl. by rewrite Hinsert_perm, IH. }
  assert (Hsort : ∀ l, l ⊆ xs → StronglySorted R (insertion_sort comparefn l)).
  { intros l. induction l as [|x l IH]; intros Hl; [constructor|].
    assert (Hlxs : l ⊆ xs) by (intros z Hz; by apply Hl, list_elem_of_further).
    change (insertion_sort comparefn (x :: l))
      with (insert_sorted comparefn x (insertion_sort comparefn l)).
    apply Hinsert.
    - apply Hl, list_elem_of_here.
    - intros z Hz. apply Hlxs. by rewrite (Hsort_perm l) in Hz.
    - by apply IH. }
  by apply Hsort.
Qed.

Definition header (fields : list (string * string)) : jsval :=
  JObject (list_to_map ((λ kv, (u16 kv.1, JString (u16 kv.2))) <$> fields)).

(** Four directories: [src/blog] holds two well-formed posts, [notes] two
    posts whose names are not numbers, [drafts] one well-formed post and
    one whose header has no author, [stubs] a post whose header has a title
    only. A source stands for the file text; the compiler below yields the
    header listed for it. *)
Definition demo_dirs : gmap jsstring (list jsstring) :=
  list_to_map [
    (u16 "src/blog", u16 <$> ["001.mdx"; "002.mdx"]%string);
    (u16 "notes", u16 <$> ["a.mdx"; "b.mdx"]%string);
    (u16 "drafts", u16 <$> ["001.mdx"; "002.mdx"]%string);
    (u16 "stubs", u16 <$> ["001.mdx"]%string)].

Definition demo_files : gmap jsstring jsstring :=
  list_to_map [
    (u16 "src/blog/001.mdx", u16 "hello");
    (u16 "src/blog/002.mdx", u16 "second");
    (u16 "notes/a.mdx", u16 "hello");
    (u16 "notes/b.mdx", u16 "second");
    (u16 "drafts/001.mdx", u16 "hello");
    (u16 "drafts/002.mdx", u16 "anonymous");
    (u16 "stubs/001.mdx", u16 "stub")].

Definition demo_headers : gmap jsstring jsval :=
  list_to_map [
    (u16 "hello",
     header [("title", "Hello World"); ("date", "2024-01-01");
             ("description", "d"); ("author", "a")]%string);
    (u16 "second",
     header [("title", "Second Post"); ("date", "2024-02-01");
             ("description", "d"); ("author", "a"); ("github", "ekqt")]%string);
    (u16 "anonymous",
     header [("title", "No Author"); ("date", "2024-03-01");
             ("description", "d")]%string);
    (u16 "stub", header [("title", "Hello")]%string)].

Definition demo : Runtime := {|
  numbers := integers;
  array := @insertion integers;
  readdirSync dir :=
    match demo_dirs !! dir with
    | Some names => Ok names
    | None => Err (HostError (u16 "ENOENT"))
    end;
  readFileSync file _ :=
    match demo_files !! file with
    | Some text => Ok text
    | None => Err (HostError (u16 "ENOENT"))
    end;
  join dir name := dir ++ u16 "/" ++ name;
  compileMDX args :=
    match demo_headers !! source args with
    | Some h => Ok {| content := source args; frontmatter := h |}
    | None => Err (HostError (u16 "MDX"))
    end;
  settle_order := [1; 0]%nat;
|}.

(** ** Notions used to state the properties *)

(** The class [[A-Za-z0-9]]. *)
Definition is_alnum (c : N) : bool := in_range 65 90 c || is_lower_alnum c.

(** The maximal runs of [s]: consecutive code units that are all inside
    or all outside the class, each run tagged with its side. *)
Fixpoint maximal_runs (cls : N → bool) (s : jsstring) : list (bool * jsstring) :=
  match s with
  | [] => []
  | c :: r =>
      match maximal_runs cls r with
      | (b, run) :: runs =>
          if Bool.eqb b (cls c) then (b, c :: run) :: runs
          else (cls c, [c]) :: (b, run) :: runs
      | [] => [(cls c, [c])]
      end
  end.

(** Replacement of runs in the words of the specification: every maximal
    run of characters of the class is replaced by [rep], the other runs
    are kept. *)
Definition replace_runs (cls : N → bool) (rep s : jsstring) : jsstring :=
  concat ((λ r : bool * jsstring, if r.1 then rep else r.2) <$> maximal_runs cls s).

(** The title transformation of the specification: the lowercased title
    with every maximal run of characters outside [[a-z0-9]] replaced by a
    single hyphen. *)
Definition spec_sluged_title (lowered : jsstring) : jsstring :=
  replace_runs not_lower_alnum (u16 "-") lowered.

(** The id of the post coerces to a number. *)
Definition numeric_id `{Numbers} (post : PostMeta.t) : Prop :=
  is_NaN (ToNumber (PostMeta.id post)) = false.

(** The comparison function of [getPosts], [(a, b) => +b.id - +a.id]. *)
Definition by_id_descending `{Numbers} (a b : PostMeta.t) : double :=
  minus (ToNumber (PostMeta.id b)) (ToNumber (PostMeta.id a)).

(** [+a.id >= +b.id]. *)
Definition id_ge `{Numbers} (a b : PostMeta.t) : Prop :=
  number_ge (ToNumber (PostMeta.id a)) (ToNumber (PostMeta.id b)) = true.

(** Each element's id coerces to a number that is at least the number of
    the next element's id. *)
Definition descending_ids `{Numbers} (posts : list PostMeta.t) : Prop :=
  Sorted id_ge posts.

(** The required keys of a header and the message reported when one is
    missing. *)
Definition required_messages : list (jsstring * jsstring) :=
  [(u16 "title", u16 "Title is required");
   (u16 "date", u16 "Date is required");
   (u16 "description", u16 "Description is required");
   (u16 "author", u16 "Author is required")].

(** The issue that a key holding a text gives rise to: none when the value
    of the key is a string. *)
Definition string_issues (k : jsstring) (required_error : option jsstring)
    (props : gmap jsstring jsval) : list ZodIssue :=
  match default JUndefined (props !! k) with
  | JString _ => []
  | v => [invalid_type required_error (u16 "string") [k] v]
  end.

(** The issue that an optional key holding a text gives rise to: none when
    the key is missing or its value is a string. *)
Definition optional_string_issues (k : jsstring) (props : gmap jsstring jsval) :
    list ZodIssue :=
  match default JUndefined (props !! k) with
  | JUndefined | JString _ => []
  | v => [invalid_type None (u16 "string") [k] v]
  end.

(** The issues of a header, key by key, in the order of the shape. *)
Definition frontmatter_issues (props : gmap jsstring jsval) : list ZodIssue :=
  string_issues (u16 "title") (Some (u16 "Title is required")) props
  ++ string_issues (u16 "date") (Some (u16 "Date is required")) props
  ++ string_issues (u16 "description") (Some (u16 "Description is required")) props
  ++ string_issues (u16 "author") (Some (u16 "Author is required")) props
  ++ optional_string_issues (u16 "github") props.

(** The issues found in a checked value. *)
Definition issues_of {A} (v : validation A) : list ZodIssue :=
  match v with
  | inl issues => issues
  | inr _ => []
  end.

(** A rejection holds at least one issue. *)
Definition rejects_with_issue {A} (v : validation A) : Prop :=
  match v with
  | inl [] => False
  | _ => True
  end.

(** The header fields of a post. *)
Definition PostMeta_frontmatter (m : PostMeta.t) : FrontMatter.t :=
  FrontMatter.Build (PostMeta.title m) (PostMeta.date m) (PostMeta.description m)
    (PostMeta.author m) (PostMeta.github m).

(** The post that [getPosts] derives from a file name and a header. *)
Definition derived_post `{StringHost} (filename : jsstring) (fm : FrontMatter.t) :
    PostMeta.t :=
  PostMeta.Build (FrontMatter.title fm) (FrontMatter.date fm)
    (FrontMatter.description fm) (FrontMatter.author fm) (FrontMatter.github fm)
    (filenameToId filename) (slugify filename (FrontMatter.title fm)).

(** The text that follows a replaced run starts outside the class. *)
Definition starts_outside (cls : N → bool) (s : jsstring) : Prop :=
  match s with
  | [] => True
  | c :: _ => cls c = false
  end.

(** A host whose directories are all empty. *)
Definition empty_disk : Runtime := {|
  numbers := integers;
  array := @insertion integers;
  readdirSync _ := Ok [];
  readFileSync _ _ := Err (HostError (u16 "ENOENT"));
  join dir name := dir ++ u16 "/" ++ name;
  compileMDX _ := Err (HostError (u16 "MDX"));
  settle_order := [];
|}.

(** * Properties *)

(** ** Strings and regular expressions *)

Lemma span_app cls s : (span cls s).1 ++ (span cls s).2 = s.
Proof.
  induction s as [|c r IH]; simpl; [done|].
  destruct (cls c); [|done].
  destruct (span cls r) as [m rest]; simpl in *. by rewrite IH.
Qed.

Lemma span_matched cls s : Forall (λ c, cls c = true) (span cls s).1.
Proof.
  induction s as [|c r IH]; simpl; [constructor|].
  destruct (cls c) eqn:Hc; [|constructor].
  destruct (span cls r) as [m rest]; simpl in *. by constructor.
Qed.

Lemma span_rest_head cls s c r : (span cls s).2 = c :: r → cls c = false.
Proof.
  induction s as [|d s IH]; simpl; [done|].
  destruct (cls d) eqn:Hd.
  - destruct (span cls s) as [m rest]; simpl in *. exact IH.
  - simpl. intros [= <- _]. exact Hd.
Qed.

Lemma span_all cls s : Forall (λ c, cls c = true) s → span cls s = (s, []).
Proof.
  induction 1 as [|c r Hc _ IH]; simpl; [done|]. by rewrite Hc, IH.
Qed.

Lemma span_stop cls seg c rest :
  Forall (λ d, cls d = true) seg → cls c = false →
  span cls (seg ++ c :: rest) = (seg, c :: rest).
Proof.
  intros Hseg Hc. induction Hseg as [|d r Hd _ IH]; simpl.
  - by rewrite Hc.
  - by rewrite Hd, IH.
Qed.

Lemma not_hyphen_Forall (s : jsstring) :
  45%N ∉ s → Forall (λ c, not_hyphen c = true) s.
Proof.
  intros Hs. apply Forall_forall. intros c Hc. unfold not_hyphen.
  destruct (N.eqb_spec c 45) as [->|]; [by destruct Hs|done].
Qed.

Lemma includes_cons pat c r :
  includes pat (c :: r) = false → starts_with pat (c :: r) = false ∧ includes pat r = false.
Proof. simpl includes. apply orb_false_elim. Qed.

Lemma replace_first_absent pat rep s :
  includes pat s = false → replace_first pat rep s = s.
Proof.
  induction s as [|c r IH].
  - simpl. by intros ->%orb_false_elim%proj1.
  - intros [Hhd Htl]%includes_cons.
    change (replace_first pat rep (c :: r))
      with (if starts_with pat (c :: r) then rep ++ drop (length pat) (c :: r)
            else c :: replace_first pat rep r).
    rewrite Hhd. by rewrite IH.
Qed.

Lemma starts_with_cons p pat c s :
  starts_with (p :: pat) (c :: s) = (p =? c)%N && starts_with pat s.
Proof. reflexivity. Qed.

(** No occurrence of the extension starts inside [s] and ends inside an
    extension appended to [s]. *)
Lemma starts_with_extension_app c r :
  starts_with fileExtension (c :: r) = false →
  starts_with fileExtension ((c :: r) ++ fileExtension) = false.
Proof.
  change fileExtension with [46; 109; 100; 120]%N.
  rewrite <- app_comm_cons, !starts_with_cons.
  destruct (46 =? c)%N; [|done].
  destruct r as [|c1 r]; [reflexivity|].
  rewrite <- app_comm_cons, !starts_with_cons. destruct (109 =? c1)%N; [|done].
  destruct r as [|c2 r]; [reflexivity|].
  rewrite <- app_comm_cons, !starts_with_cons. destruct (100 =? c2)%N; [|done].
  destruct r as [|c3 r]; [reflexivity|].
  rewrite <- app_comm_cons, !starts_with_cons. done.
Qed.

Lemma replace_first_extension_suffix s :
  includes fileExtension s = false →
  replace_first fileExtension [] (s ++ fileExtension) = s.
Proof.
  induction s as [|c r IH]; [done|].
  intros [Hhd Htl]%includes_cons.
  change (replace_first fileExtension [] ((c :: r) ++ fileExtension))
    with (if starts_with fileExtension ((c :: r) ++ fileExtension)
          then [] ++ drop (length fileExtension) ((c :: r) ++ fileExtension)
          else c :: replace_first fileExtension [] (r ++ fileExtension)).
  rewrite (starts_with_extension_app _ _ Hhd). by rewrite IH.
Qed.

(** ** [getFilename] *)

Lemma getFilename_span slug :
  getFilename slug = Ok ((span not_hyphen slug).1 ++ fileExtension).
Proof. reflexivity. Qed.

Lemma getFilename_segment seg rest :
  45%N ∉ seg → getFilename (seg ++ u16 "-" ++ rest) = Ok (seg ++ fileExtension).
Proof.
  intros Hseg. rewrite getFilename_span.
  change (u16 "-" ++ rest) with (45%N :: rest).
  by rewrite (span_stop not_hyphen seg 45 rest (not_hyphen_Forall _ Hseg)).
Qed.

Lemma getFilename_no_hyphen seg :
  45%N ∉ seg → getFilename seg = Ok (seg ++ fileExtension).
Proof.
  intros Hseg. rewrite getFilename_span.
  by rewrite (span_all not_hyphen seg (not_hyphen_Forall _ Hseg)).
Qed.

(** ** The global replacement and the maximal runs *)

Lemma replace_plus_g_nil cls rep : replace_plus_g cls rep [] = [].
Proof. by simp replace_plus_g. Qed.

Lemma replace_plus_g_inside cls rep c r :
  cls c = true →
  replace_plus_g cls rep (c :: r) = rep ++ replace_plus_g cls rep (span cls r).2.
Proof. intros Hc. simp replace_plus_g. by rewrite Hc. Qed.

Lemma replace_plus_g_outside cls rep c r :
  cls c = false →
  replace_plus_g cls rep (c :: r) = c :: replace_plus_g cls rep r.
Proof. intros Hc. simp replace_plus_g. by rewrite Hc. Qed.

(** The runs are a decomposition of the string ... *)
Lemma maximal_runs_concat cls s : concat ((λ r, r.2) <$> maximal_runs cls s) = s.
Proof.
  induction s as [|c r IH]; simpl; [done|].
  destruct (maximal_runs cls r) as [|[b run] runs]; simpl in *.
  - by rewrite <- IH.
  - destruct (Bool.eqb b (cls c)); simpl; by rewrite <- IH.
Qed.

(** ... each run is not empty and lies on one side of the class ... *)
Lemma maximal_runs_sides cls s :
  Forall (λ r, r.2 ≠ [] ∧ Forall (λ c, cls c = r.1) r.2) (maximal_runs cls s).
Proof.
  induction s as [|c r IH]; simpl; [constructor|].
  destruct (maximal_runs cls r) as [|[b run] runs]; simpl in *.
  - repeat constructor. done.
  - destruct (Bool.eqb b (cls c)) eqn:Hb.
    + apply Bool.eqb_prop in Hb as ->.
      inversion IH as [|? ? [_ Hrun] Hruns]; subst; simpl in *.
      constructor; [|done]. split; [done|]. by constructor.
    + constructor; [|done]. simpl. split; [done|]. by repeat constructor.
Qed.

(** ... and two consecutive runs lie on different sides, so that every
    run is maximal. *)
Lemma maximal_runs_alternate cls s i r1 r2 :
  maximal_runs cls s !! i = Some r1 → maximal_runs cls s !! S i = Some r2 →
  r1.1 ≠ r2.1.
Proof.
  revert i r1 r2. induction s as [|c r IH]; simpl; [done|].
  intros i r1 r2.
  destruct (maximal_runs cls r) as [|[b run] runs] eqn:Hr; simpl; [done|].
  destruct (Bool.eqb b (cls c)) eqn:Hb.
  - destruct i as [|i]; simpl.
    + intros [= <-] H2. simpl. apply (IH 0 (b, run) r2); done.
    + intros H1 H2. by apply (IH (S i) r1 r2).
  - destruct i as [|i]; simpl.
    + intros [= <-] [= <-]. simpl. intros Heq. rewrite Heq in Hb.
      by rewrite Bool.eqb_reflx in Hb.
    + intros H1 H2. by apply (IH i r1 r2).
Qed.

Lemma maximal_runs_head cls c r :
  ∃ run runs, maximal_runs cls (c :: r) = (cls c, c :: run) :: runs.
Proof.
  simpl. destruct (maximal_runs cls r) as [|[b run] runs]; [by eexists _, _|].
  destruct (Bool.eqb b (cls c)) eqn:Hb; [|by eexists _, _].
  apply Bool.eqb_prop in Hb as ->. by eexists _, _.
Qed.

Lemma maximal_runs_inside cls c r :
  cls c = true →
  maximal_runs cls (c :: r) =
    (true, c :: (span cls r).1) :: maximal_runs cls (span cls r).2.
Proof.
  revert c. induction r as [|d r IH]; intros c Hc.
  - simpl. by rewrite Hc.
  - change (maximal_runs cls (c :: d :: r))
      with (match maximal_runs cls (d :: r) with
            | (b, run) :: runs =>
                if Bool.eqb b (cls c) then (b, c :: run) :: runs
                else (cls c, [c]) :: (b, run) :: runs
            | [] => [(cls c, [c])]
            end).
    simpl span. destruct (cls d) eqn:Hd.
    + rewrite (IH d Hd), Hc. simpl. by destruct (span cls r).
    + destruct (maximal_runs_head cls d r) as (run & runs & Hhd).
      cbn [fst snd]. by rewrite Hhd, Hd, Hc.
Qed.

Lemma replace_runs_inside cls rep c r :
  cls c = true →
  replace_runs cls rep (c :: r) = rep ++ replace_runs cls rep (span cls r).2.
Proof. intros Hc. unfold replace_runs. by rewrite maximal_runs_inside. Qed.

Lemma replace_runs_outside cls rep c r :
  cls c = false →
  replace_runs cls rep (c :: r) = c :: replace_runs cls rep r.
Proof.
  intros Hc. unfold replace_runs. simpl.
  destruct (maximal_runs cls r) as [|[b run] runs]; simpl.
  - by rewrite Hc.
  - rewrite Hc. by destruct b.
Qed.

(** The code's global replacement is the replacement of the maximal
    runs. *)
Lemma replace_plus_g_runs cls rep s :
  replace_plus_g cls rep s = replace_runs cls rep s.
Proof.
  remember (length s) as n eqn:Hn. revert s Hn.
  induction n as [n IH] using lt_wf_ind. intros [|c r] ->; [done|].
  destruct (cls c) eqn:Hc.
  - rewrite replace_plus_g_inside, replace_runs_inside by done. f_equal.
    apply (IH (length (span cls r).2)); [|done].
    pose proof (span_app cls r) as Happ. apply (f_equal length) in Happ.
    rewrite length_app in Happ. simpl. lia.
  - rewrite replace_plus_g_outside, replace_runs_outside by done. f_equal.
    apply (IH (length r)); [simpl; lia|done].
Qed.

Lemma replace_plus_g_all_inside cls rep s :
  Forall (λ c, cls c = true) s →
  replace_plus_g cls rep s = match s with [] => [] | _ => rep end.
Proof.
  intros Hs. destruct Hs as [|c r Hc Hr]; [by rewrite replace_plus_g_nil|].
  rewrite replace_plus_g_inside by done.
  rewrite (span_all cls r Hr). simpl. rewrite replace_plus_g_nil. apply app_nil_r.
Qed.

(** ** [filenameToId] and [slugify] *)

Section helper_properties.
Context `{StringHost}.

Lemma filenameToId_extension_suffix s :
  toLowerCase (s ++ fileExtension) = s ++ fileExtension →
  includes fileExtension s = false →
  filenameToId (s ++ fileExtension) = s.
Proof.
  intros Hlow Hs. unfold filenameToId. rewrite Hlow.
  by apply replace_first_extension_suffix.
Qed.

(** Whatever the file name, [getFilename] gives back the id of a slug
    followed by the extension, as long as the id has no hyphen. *)
Lemma getFilename_slugify f t :
  45%N ∉ filenameToId f →
  getFilename (slugify f t) = Ok (filenameToId f ++ fileExtension).
Proof. intros Hid. unfold slugify. by apply getFilename_segment. Qed.

Lemma getFilename_slugify_iff f t :
  45%N ∉ filenameToId f →
  getFilename (slugify f t) = Ok f ↔ f = filenameToId f ++ fileExtension.
Proof.
  intros Hid. rewrite getFilename_slugify by done.
  split; [intros [= Hf]; by symmetry|intros Hf; f_equal; by symmetry].
Qed.

(** C1 (amended): for every file name [f = s ++ ".mdx"] that lowercasing
    leaves unchanged, where [s] has no hyphen and no occurrence of the
    extension, and for every title [t], recovering the file name from the
    slug gives [f] back: [getFilename (slugify f t) = f]. *)
Theorem getFilename_slugify_roundtrip s t :
  toLowerCase (s ++ fileExtension) = s ++ fileExtension →
  includes fileExtension s = false →
  45%N ∉ s →
  getFilename (slugify (s ++ fileExtension) t) = Ok (s ++ fileExtension).
Proof.
  intros Hlow Hext Hs.
  pose proof (filenameToId_extension_suffix s Hlow Hext) as Hid.
  rewrite getFilename_slugify; rewrite Hid; done.
Qed.

(** C3 (amended): for every title whose lowercase form has no character
    in [[a-z0-9]], [slugify] returns [id ++ "-"] when that form is empty
    and [id ++ "--"] otherwise (the transformed title is then a single
    hyphen, not the empty string); no error is raised in either case. *)
Theorem slugify_title_without_alnum f t :
  Forall (λ c, is_lower_alnum c = false) (toLowerCase t) →
  slugify f t =
    filenameToId f ++ u16 "-" ++
      match toLowerCase t with [] => [] | _ => u16 "-" end.
Proof.
  intros Ht. unfold slugify. do 2 f_equal.
  apply replace_plus_g_all_inside.
  eapply Forall_impl; [exact Ht|]. intros c Hc. unfold not_lower_alnum. by rewrite Hc.
Qed.

(** C9 (amended): for every string [id] that lowercasing leaves unchanged
    and that has no occurrence of the file extension, [filenameToId] is a
    no-op: [filenameToId id = id]. *)
Theorem filenameToId_noop id :
  toLowerCase id = id →
  includes fileExtension id = false →
  filenameToId id = id.
Proof.
  intros Hlow Hext. unfold filenameToId. rewrite Hlow.
  by apply replace_first_absent.
Qed.

Lemma slugify_runs f t :
  slugify f t = filenameToId f ++ u16 "-" ++ spec_sluged_title (toLowerCase t).
Proof. unfold slugify, spec_sluged_title. by rewrite replace_plus_g_runs. Qed.
End helper_properties.

(** C5: for every file name and title, [slugify] is the id, a hyphen and
    the title lowercased with every maximal run of characters outside
    [[a-z0-9]] replaced by a single hyphen; the file [001.mdx] has id [001],
    and with the title [Hello World] its slug is [001-hello-world]. *)
Theorem slugify_spec :
  (∀ (host : StringHost) (f t : jsstring),
     slugify f t = filenameToId f ++ u16 "-" ++ spec_sluged_title (toLowerCase t)) ∧
  @filenameToId latin1 (u16 "001.mdx") = u16 "001" ∧
  @slugify latin1 (u16 "001.mdx") (u16 "Hello World") = u16 "001-hello-world".
Proof.
  split; [|split].
  - intros host f t. apply slugify_runs.
  - reflexivity.
  - reflexivity.
Qed.

(** C1, as stated, fails: the id of [Intro.mdx] is [intro], without a
    hyphen, and the file name recovered from the slug is [intro.mdx]. *)
Lemma getFilename_slugify_not_inverse :
  (45%N ∉ @filenameToId latin1 (u16 "Intro.mdx")) ∧
  getFilename (@slugify latin1 (u16 "Intro.mdx") (u16 "Hello")) = Ok (u16 "intro.mdx") ∧
  getFilename (@slugify latin1 (u16 "Intro.mdx") (u16 "Hello")) ≠ Ok (u16 "Intro.mdx").
Proof.
  split; [|split].
  - apply (bool_decide_unpack _). by vm_compute.
  - reflexivity.
  - vm_compute. discriminate.
Qed.

Lemma getFilename_slugify_roundtrip_witness :
  getFilename (@slugify latin1 (u16 "001" ++ fileExtension) (u16 "Hello World"))
  = Ok (u16 "001" ++ fileExtension).
Proof.
  apply (@getFilename_slugify_roundtrip latin1 (u16 "001") (u16 "Hello World")).
  - reflexivity.
  - reflexivity.
  - apply (bool_decide_unpack _). by vm_compute.
Defined.

(** C3, as stated, fails: the title [!!!] has no alphanumeric character,
    its transformation is one hyphen, and the slug of [001.mdx] ends in two
    hyphens. *)
Lemma slugify_symbols_two_hyphens :
  Forall (λ c, is_alnum c = false) (u16 "!!!") ∧
  @slugify latin1 (u16 "001.mdx") (u16 "!!!") = u16 "001--" ∧
  @slugify latin1 (u16 "001.mdx") (u16 "!!!")
    ≠ @filenameToId latin1 (u16 "001.mdx") ++ u16 "-".
Proof.
  split; [|split].
  - by repeat constructor.
  - reflexivity.
  - vm_compute. discriminate.
Qed.

Lemma slugify_title_without_alnum_witness :
  @slugify latin1 (u16 "001.mdx") (u16 "?!") = u16 "001--" ∧
  @slugify latin1 (u16 "001.mdx") [] = u16 "001-".
Proof.
  split.
  - apply (@slugify_title_without_alnum latin1 (u16 "001.mdx") (u16 "?!")).
    by repeat constructor.
  - apply (@slugify_title_without_alnum latin1 (u16 "001.mdx") []).
    constructor.
Defined.

(** C9, as stated, fails: [README] does not end with the extension and
    [filenameToId] turns it into [readme]. *)
Lemma filenameToId_changes_id :
  ends_with fileExtension (u16 "README") = false ∧
  @filenameToId latin1 (u16 "README") = u16 "readme" ∧
  @filenameToId latin1 (u16 "README") ≠ u16 "README".
Proof.
  split; [|split].
  - reflexivity.
  - reflexivity.
  - vm_compute. discriminate.
Qed.

Lemma filenameToId_noop_witness :
  @filenameToId latin1 (u16 "001") = u16 "001".
Proof.
  apply (@filenameToId_noop latin1 (u16 "001")); reflexivity.
Defined.

(** An extension inside the string is removed as well. *)
Example filenameToId_inner_extension :
  ends_with fileExtension (u16 "a.mdxb") = false ∧
  @filenameToId latin1 (u16 "a.mdxb") = u16 "ab".
Proof. split; reflexivity. Qed.

(** ** [getPost] *)

Section getPost_properties.
Context `{Runtime}.

Lemma getPost_span dir slug :
  getPost dir slug =
    (source ← io_readFileSync
                (join dir ((span not_hyphen slug).1 ++ fileExtension)) (u16 "utf8");
     lift (compileMDX {|
       source := source;
       options := {| parseFrontmatter := true; rehypePlugins := [rehypeSlug] |};
       mdx_components := Some components |})).
Proof.
  unfold getPost. rewrite getFilename_span.
  unfold mbind, IO_bind, io_readFileSync, lift. simpl.
  by destruct (readFileSync _ _).
Qed.

Lemma getPost_log dir slug :
  io_log (getPost dir slug) =
    [ReadFile (join dir ((span not_hyphen slug).1 ++ fileExtension))].
Proof.
  rewrite getPost_span. unfold mbind, IO_bind, io_readFileSync, lift. simpl.
  by destruct (readFileSync _ _).
Qed.

(** C7: for a slug made of a segment [seg] without a hyphen, a hyphen
    and a title part, the one file [getPost] reads is [seg] plus the
    extension, in the directory; the title part has no effect: two
    slugs with the same leading segment read the same file and have the
    same outcome. *)
Theorem getPost_reads_leading_segment dir seg title title' :
  45%N ∉ seg →
  io_log (getPost dir (seg ++ u16 "-" ++ title))
    = [ReadFile (join dir (seg ++ fileExtension))] ∧
  getPost dir (seg ++ u16 "-" ++ title) = getPost dir (seg ++ u16 "-" ++ title') ∧
  getPost dir (seg ++ u16 "-" ++ title) = getPost dir seg.
Proof.
  intros Hseg.
  pose proof (not_hyphen_Forall _ Hseg) as Hall.
  assert (Hspan : ∀ x, (span not_hyphen (seg ++ u16 "-" ++ x)).1 = seg).
  { intros x. change (u16 "-" ++ x) with (45%N :: x).
    by rewrite (span_stop not_hyphen seg 45 x Hall). }
  split; [|split].
  - by rewrite getPost_log, Hspan.
  - by rewrite !getPost_span, !Hspan.
  - by rewrite !getPost_span, Hspan, (span_all not_hyphen seg Hall).
Qed.

(** The outcome of [getPost] is the outcome of the compiler: the header
    it returns is not checked against any schema. *)
Lemma getPost_unvalidated dir slug text compiled :
  readFileSync (join dir ((span not_hyphen slug).1 ++ fileExtension)) (u16 "utf8")
    = Ok text →
  compileMDX {|
    source := text;
    options := {| parseFrontmatter := true; rehypePlugins := [rehypeSlug] |};
    mdx_components := Some components |} = Ok compiled →
  io_result (getPost dir slug) = Ok compiled.
Proof.
  intros Hread Hcompile. rewrite getPost_span.
  unfold mbind, IO_bind, io_readFileSync, lift. simpl. rewrite Hread. simpl.
  by rewrite Hcompile.
Qed.
End getPost_properties.

(** C10: the id schema accepts every text, and for every slug the match
    of the leading segment yields a string [seg], the longest prefix of the
    slug without a hyphen, so that [getFilename] returns [seg] followed by
    the extension and never throws; the empty slug and a slug that starts
    with a hyphen give the bare extension; [getPost] therefore always gets
    past its first step and issues the read of a file. *)
Theorem getFilename_total :
  (∀ s : jsstring, parse metaSchema_shape_id (JString s) = Ok s) ∧
  (∀ slug : jsstring, ∃ seg rest : jsstring,
     slug = seg ++ rest ∧ (45%N ∉ seg) ∧ (rest = [] ∨ ∃ rest', rest = 45%N :: rest') ∧
     optional_first (match_star_anchored not_hyphen slug) = JString seg ∧
     getFilename slug = Ok (seg ++ fileExtension)) ∧
  getFilename [] = Ok fileExtension ∧
  getFilename (u16 "-hello") = Ok fileExtension ∧
  (∀ (host : Runtime) (dir slug : jsstring),
     ∃ file, io_log (getPost dir slug) = [ReadFile file]).
Proof.
  split; [done|]. split; [|split; [done|split; [done|]]].
  2: { intros host dir slug. eexists. apply getPost_log. }
  intros slug. exists (span not_hyphen slug).1, (span not_hyphen slug).2.
  split; [by rewrite span_app|]. split; [|split; [|done]].
  - intros Hin. pose proof (span_matched not_hyphen slug) as Hm.
    rewrite Forall_forall in Hm. by specialize (Hm _ Hin).
  - destruct (span not_hyphen slug).2 as [|c rest'] eqn:Hrest; [by left|right].
    apply span_rest_head in Hrest. unfold not_hyphen in Hrest.
    destruct (N.eqb_spec c 45) as [->|]; [by eexists|done].
Qed.

Lemma getPost_reads_leading_segment_witness :
  io_log (@getPost demo blogDir (u16 "001-hello-world"))
    = [ReadFile (u16 "src/blog/001.mdx")] ∧
  @getPost demo blogDir (u16 "001-hello-world") = @getPost demo blogDir (u16 "001-anything").
Proof.
  destruct (@getPost_reads_leading_segment demo blogDir (u16 "001")
              (u16 "hello-world") (u16 "anything")) as (Hlog & Hsame & _).
  - apply (bool_decide_unpack _). by vm_compute.
  - split; [exact Hlog|exact Hsame].
Defined.

(** ** The schemas *)

Lemma shape_ap_issue_l {A B} (f : shape (A → B)) (x : shape A) p props i :
  (∃ issues, f p props = inl issues ∧ i ∈ issues) →
  ∃ issues, (f <*> x) p props = inl issues ∧ i ∈ issues.
Proof.
  intros (issues & Hf & Hi). unfold shape_ap. rewrite Hf.
  destruct (x p props) as [issues'|a]; eexists; (split; [done|]); [|done].
  apply elem_of_app. by left.
Qed.

Lemma shape_ap_issue_r {A B} (f : shape (A → B)) (x : shape A) p props i :
  (∃ issues, x p props = inl issues ∧ i ∈ issues) →
  ∃ issues, (f <*> x) p props = inl issues ∧ i ∈ issues.
Proof.
  intros (issues & Hx & Hi). unfold shape_ap. rewrite Hx.
  destruct (f p props) as [issues'|g]; eexists; (split; [done|]); [|done].
  apply elem_of_app. by right.
Qed.

Lemma key_string_missing (k : jsstring) (required_error : option jsstring)
    (p : list jsstring) (props : gmap jsstring jsval) :
  props !! k = None →
  ∃ issues,
    key k (z_string required_error) p props = inl issues ∧
    invalid_type required_error (u16 "string") (p ++ [k]) JUndefined ∈ issues.
Proof.
  intros Hk. unfold key. rewrite Hk. simpl. eexists. split; [done|]. apply list_elem_of_here.
Qed.

(** A required key that is missing is reported, whatever the rest of the
    header holds, by the five keys of the base schema. *)
Lemma frontmatter_keys_missing {B}
    (build : shape (jsstring → jsstring → jsstring → jsstring → option jsstring → B))
    (props : gmap jsstring jsval) (k msg : jsstring) :
  (k, msg) ∈ required_messages →
  props !! k = None →
  ∃ issues,
    frontmatter_keys build [] props = inl issues ∧
    {| expected := u16 "string"; received := u16 "undefined";
       path := [k]; message := msg |} ∈ issues.
Proof.
  intros Hk Hmissing. unfold frontmatter_keys, required_messages in *.
  apply elem_of_cons in Hk as [[= -> ->]|Hk].
  { do 4 apply shape_ap_issue_l. apply shape_ap_issue_r.
    exact (key_string_missing (u16 "title") (Some (u16 "Title is required"))
             [] props Hmissing). }
  apply elem_of_cons in Hk as [[= -> ->]|Hk].
  { do 3 apply shape_ap_issue_l. apply shape_ap_issue_r.
    exact (key_string_missing (u16 "date") (Some (u16 "Date is required"))
             [] props Hmissing). }
  apply elem_of_cons in Hk as [[= -> ->]|Hk].
  { do 2 apply shape_ap_issue_l. apply shape_ap_issue_r.
    exact (key_string_missing (u16 "description") (Some (u16 "Description is required"))
             [] props Hmissing). }
  apply elem_of_cons in Hk as [[= -> ->]|Hk].
  { apply shape_ap_issue_l. apply shape_ap_issue_r.
    exact (key_string_missing (u16 "author") (Some (u16 "Author is required"))
             [] props Hmissing). }
  by apply elem_of_nil in Hk.
Qed.

Lemma frontmatterSchema_missing (props : gmap jsstring jsval) (k msg : jsstring) :
  (k, msg) ∈ required_messages →
  props !! k = None →
  ∃ issues,
    parse frontmatterSchema (JObject props) = Err (ZodError issues) ∧
    {| expected := u16 "string"; received := u16 "undefined";
       path := [k]; message := msg |} ∈ issues.
Proof.
  intros Hk Hmissing.
  destruct (frontmatter_keys_missing (shape_pure FrontMatter.Build) props k msg Hk Hmissing)
    as (issues & Hkeys & Hi).
  exists issues. split; [|done].
  unfold parse, frontmatterSchema, z_object. by rewrite Hkeys.
Qed.

Lemma frontmatterSchema_accepts (props : gmap jsstring jsval)
    (t d ds a : jsstring) (g : option jsstring) :
  props !! u16 "title" = Some (JString t) →
  props !! u16 "date" = Some (JString d) →
  props !! u16 "description" = Some (JString ds) →
  props !! u16 "author" = Some (JString a) →
  props !! u16 "github" = JString <$> g →
  parse frontmatterSchema (JObject props) = Ok (FrontMatter.Build t d ds a g).
Proof.
  intros Ht Hd Hds Ha Hg.
  unfold parse, frontmatterSchema, z_object, frontmatter_keys, shape_ap, key, shape_pure.
  rewrite Ht, Hd, Hds, Ha, Hg. by destruct g.
Qed.

(** C6: a header that lacks one of [title], [date], [description],
    [author] is rejected, and the error holds the issue of that key with
    its message ("Title is required", ...); a header whose four required
    keys are text and that has no [github] is accepted; an absent header
    is rejected with the one issue "Post not found". *)
Theorem frontmatterSchema_validation :
  (∀ (props : gmap jsstring jsval) (k msg : jsstring),
     (k, msg) ∈ required_messages →
     props !! k = None →
     ∃ issues,
       parse frontmatterSchema (JObject props) = Err (ZodError issues) ∧
       {| expected := u16 "string"; received := u16 "undefined";
          path := [k]; message := msg |} ∈ issues) ∧
  (∀ (props : gmap jsstring jsval) (t d ds a : jsstring),
     props !! u16 "title" = Some (JString t) →
     props !! u16 "date" = Some (JString d) →
     props !! u16 "description" = Some (JString ds) →
     props !! u16 "author" = Some (JString a) →
     props !! u16 "github" = None →
     parse frontmatterSchema (JObject props) = Ok (FrontMatter.Build t d ds a None)) ∧
  parse frontmatterSchema JUndefined =
    Err (ZodError [{| expected := u16 "object"; received := u16 "undefined";
                      path := []; message := u16 "Post not found" |}]).
Proof.
  split; [|split].
  - apply frontmatterSchema_missing.
  - intros props t d ds a Ht Hd Hds Ha Hg.
    by apply (frontmatterSchema_accepts props t d ds a None).
  - reflexivity.
Qed.

Lemma frontmatterSchema_validation_witness :
  (∃ issues,
     parse frontmatterSchema
       (header [("title", "No Author"); ("date", "2024-03-01"); ("description", "d")]%string)
       = Err (ZodError issues) ∧
     {| expected := u16 "string"; received := u16 "undefined";
        path := [u16 "author"]; message := u16 "Author is required" |} ∈ issues) ∧
  parse frontmatterSchema
    (header [("title", "Hello World"); ("date", "2024-01-01");
             ("description", "d"); ("author", "a")]%string)
    = Ok (FrontMatter.Build (u16 "Hello World") (u16 "2024-01-01") (u16 "d") (u16 "a") None).
Proof.
  destruct frontmatterSchema_validation as (Hmissing & Haccept & _).
  split.
  - apply Hmissing.
    + unfold required_messages. do 3 apply list_elem_of_further. apply list_elem_of_here.
    + reflexivity.
  - apply Haccept; reflexivity.
Defined.

Example frontmatterSchema_null :
  parse frontmatterSchema JNull =
    Err (ZodError [{| expected := u16 "object"; received := u16 "null";
                      path := []; message := u16 "Expected object, received null" |}]).
Proof. reflexivity. Qed.

(** C2 (code defect): [getPost] returns the header as the compiler parsed
    it. In the directory [stubs] the header of [001.mdx] holds a title
    only; [getPost] succeeds with that header, which the schema
    [metaSchema] rejects with five issues (date, description, author, id
    and slug). *)
Theorem getPost_skips_validation :
  ∃ compiled,
    io_result (@getPost demo (u16 "stubs") (u16 "001-hello")) = Ok compiled ∧
    frontmatter compiled = header [("title", "Hello")]%string ∧
    ∃ issues,
      parse metaSchema (frontmatter compiled) = Err (ZodError issues) ∧
      path <$> issues =
        [[u16 "date"]; [u16 "description"]; [u16 "author"]; [u16 "id"]; [u16 "slug"]].
Proof.
  eexists. split; [vm_compute; reflexivity|]. split; [reflexivity|].
  eexists. split; [vm_compute; reflexivity|]. reflexivity.
Qed.

(** ** [Promise.all] *)

Lemma first_rejection_rejected {A} order (settled : list (result A)) e :
  first_rejection order settled = Some e → ∃ j, settled !! j = Some (Err e).
Proof.
  induction order as [|i later IH]; simpl; [done|].
  destruct (settled !! i) as [[a|e']|] eqn:Hi; [done| |done].
  intros [= ->]. by exists i.
Qed.

Lemma all_fulfilled_rejected {A} (settled : list (result A)) e :
  all_fulfilled settled = Err e → ∃ j, settled !! j = Some (Err e).
Proof.
  induction settled as [|[a|e'] rest IH]; simpl; [done| |].
  - destruct (all_fulfilled rest) as [values|e'']; [done|].
    intros [= ->]. destruct IH as [j Hj]; [done|]. by exists (S j).
  - intros [= ->]. by exists 0.
Qed.

Lemma all_fulfilled_values {A} (settled : list (result A)) values :
  all_fulfilled settled = Ok values → settled = Ok <$> values.
Proof.
  revert values. induction settled as [|[a|e'] rest IH]; simpl; intros values.
  - by intros [= <-].
  - destruct (all_fulfilled rest) as [values'|e'']; [|done].
    intros [= <-]. simpl. by rewrite (IH values').
  - done.
Qed.

(** A rejection is the reason of one of the promises. *)
Lemma Promise_all_rejected {A} order (settled : list (result A)) e :
  Promise_all order settled = Err e → ∃ j, settled !! j = Some (Err e).
Proof.
  unfold Promise_all.
  destruct (first_rejection order settled) as [e'|] eqn:Hfirst.
  - intros [= <-]. by eapply first_rejection_rejected.
  - apply all_fulfilled_rejected.
Qed.

(** A fulfilment means that every promise fulfilled. *)
Lemma Promise_all_fulfilled {A} order (settled : list (result A)) values :
  Promise_all order settled = Ok values → settled = Ok <$> values.
Proof.
  unfold Promise_all. destruct (first_rejection order settled); [done|].
  apply all_fulfilled_values.
Qed.

(** One rejected promise is enough for [Promise.all] to reject. *)
Lemma Promise_all_one_rejected {A} order (settled : list (result A)) i e :
  settled !! i = Some (Err e) →
  ∃ e' j, Promise_all order settled = Err e' ∧ settled !! j = Some (Err e').
Proof.
  intros Hi. destruct (Promise_all order settled) as [values|e'] eqn:Hall.
  - apply Promise_all_fulfilled in Hall. rewrite Hall, list_lookup_fmap in Hi.
    by destruct (values !! i).
  - destruct (Promise_all_rejected _ _ _ Hall) as [j Hj]. by exists e', j.
Qed.

(** ** Sorting *)

Section by_id.
Context `{Numbers}.

(** Between posts whose ids coerce to numbers, the comparison of
    [getPosts] is negative exactly when the id of the second is the
    smaller number, and positive exactly when it is the greater. *)
Lemma by_id_descending_lt (a b : PostMeta.t) :
  numeric_id a → numeric_id b →
  CF_lt by_id_descending a b ↔
  number_lt (ToNumber (PostMeta.id b)) (ToNumber (PostMeta.id a)) = true.
Proof.
  unfold numeric_id, CF_lt, SortCompare, by_id_descending. intros Ha Hb.
  pose proof (minus_negative _ _ Hb Ha) as Hminus.
  destruct (is_NaN (minus _ _)) eqn:Hnan; [|by rewrite Hminus].
  rewrite (number_lt_NaN_l _ zero Hnan) in Hminus.
  by rewrite number_lt_irrefl, <- Hminus.
Qed.

Lemma by_id_descending_gt (a b : PostMeta.t) :
  numeric_id a → numeric_id b →
  CF_gt by_id_descending a b ↔
  number_lt (ToNumber (PostMeta.id a)) (ToNumber (PostMeta.id b)) = true.
Proof.
  unfold numeric_id, CF_gt, SortCompare, by_id_descending. intros Ha Hb.
  pose proof (minus_positive _ _ Hb Ha) as Hminus.
  destruct (is_NaN (minus _ _)) eqn:Hnan; [|by rewrite Hminus].
  rewrite (number_lt_NaN_r zero _ Hnan) in Hminus.
  by rewrite number_lt_irrefl, <- Hminus.
Qed.

(** The comparison of [getPosts] is a consistent comparator for posts
    whose ids coerce to numbers. *)
Lemma by_id_descending_consistent (posts : list PostMeta.t) :
  Forall numeric_id posts → consistent_comparator by_id_descending posts.
Proof.
  rewrite Forall_forall. intros Hposts a b c Ha Hb Hc.
  apply Hposts in Ha, Hb, Hc. unfold CF_eq.
  rewrite !by_id_descending_lt, !by_id_descending_gt by done.
  set (x := ToNumber (PostMeta.id a)). set (y := ToNumber (PostMeta.id b)).
  set (z := ToNumber (PostMeta.id c)).
  split; [|split; [|split; [|split]]].
  - rewrite number_lt_irrefl. by split.
  - tauto.
  - intros [Hyx Hxy] [Hzy Hyz]. split.
    + intros Hzx. by destruct (number_lt_cotrans z y x Hb Hzx).
    + intros Hxz. by destruct (number_lt_cotrans x y z Hb Hxz).
  - intros Hyx Hzy. by apply (number_lt_trans z y x).
  - intros Hxy Hyz. by apply (number_lt_trans x y z).
Qed.

Lemma id_ge_not_lt (a b : PostMeta.t) :
  numeric_id a → numeric_id b →
  id_ge a b ↔ ¬ CF_lt by_id_descending b a.
Proof.
  intros Ha Hb. rewrite by_id_descending_lt by done.
  unfold id_ge, number_ge. unfold numeric_id in *. rewrite Ha, Hb. simpl.
  by destruct (number_lt _ _).
Qed.
End by_id.

(** ** [getPosts] *)

Section getPosts_properties.
Context `{StringHost} `{Runtime}.

Lemma getPosts_result dir :
  io_result (getPosts dir) =
    match readdirSync dir with
    | Ok files =>
        match Promise_all settle_order (io_result <$> (getPosts_file dir <$> files)) with
        | Ok posts => Ok (sort by_id_descending posts)
        | Err e => Err e
        end
    | Err e => Err e
    end.
Proof.
  unfold getPosts, mbind, IO_bind, io_readdirSync, await_all. simpl.
  destruct (readdirSync dir) as [files|e]; simpl; [|done].
  by destruct (Promise_all _ _).
Qed.

Lemma getPosts_file_log dir name :
  io_log (getPosts_file dir name) = [ReadFile (join dir name)].
Proof.
  unfold getPosts_file, mbind, IO_bind, io_readFileSync, lift. simpl.
  destruct (readFileSync _ _); simpl; [|done].
  destruct (compileMDX _); simpl; [|done].
  by destruct (parse frontmatterSchema _).
Qed.

Lemma getPosts_files_log dir files :
  concat (io_log <$> (getPosts_file dir <$> files))
  = (λ name, ReadFile (join dir name)) <$> files.
Proof.
  induction files as [|name files IH]; [done|].
  rewrite !fmap_cons. simpl concat. by rewrite IH, getPosts_file_log.
Qed.

(** The reads of a listing: the directory, then every file of it, in
    the order of the listing, whatever the outcome of each file. *)
Lemma getPosts_log dir files :
  readdirSync dir = Ok files →
  io_log (getPosts dir) = ReadDir dir :: ((λ name, ReadFile (join dir name)) <$> files).
Proof.
  intros Hdir.
  unfold getPosts, mbind, IO_bind, io_readdirSync, await_all. simpl.
  rewrite Hdir. simpl. f_equal.
  destruct (Promise_all _ _); simpl; rewrite ?app_nil_r; apply getPosts_files_log.
Qed.

(** A file whose header lacks the author makes its task fail with the
    issue of that key. *)
Lemma getPosts_file_missing_author (dir name text : jsstring)
    (compiled : CompileMDXResult) (props : gmap jsstring jsval) :
  readFileSync (join dir name) (u16 "utf-8") = Ok text →
  compileMDX {|
    source := text;
    options := {| parseFrontmatter := true; rehypePlugins := [] |};
    mdx_components := None |} = Ok compiled →
  frontmatter compiled = JObject props →
  props !! u16 "author" = None →
  ∃ issues,
    io_result (getPosts_file dir name) = Err (ZodError issues) ∧
    {| expected := u16 "string"; received := u16 "undefined";
       path := [u16 "author"]; message := u16 "Author is required" |} ∈ issues.
Proof.
  intros Hread Hcompile Hheader Hauthor.
  destruct (frontmatterSchema_missing props (u16 "author") (u16 "Author is required"))
    as (issues & Hparse & Hissue); [|done|].
  { unfold required_messages. do 3 apply list_elem_of_further. apply list_elem_of_here. }
  exists issues. split; [|done].
  unfold getPosts_file, mbind, IO_bind, io_readFileSync, lift. simpl.
  rewrite Hread. simpl. rewrite Hcompile. simpl. rewrite Hheader, Hparse. done.
Qed.

(** C8: when the task of one file of the directory fails, [getPosts]
    fails, with the error of a file whose task failed, and returns no
    list; when every other file of the directory is valid, the error is
    that of the failing file. *)
Theorem getPosts_all_or_nothing (dir : jsstring) (files : list jsstring)
    (i : nat) (name : jsstring) (e : error) :
  readdirSync dir = Ok files →
  files !! i = Some name →
  io_result (getPosts_file dir name) = Err e →
  ∃ e' j name',
    io_result (getPosts dir) = Err e' ∧
    files !! j = Some name' ∧
    io_result (getPosts_file dir name') = Err e' ∧
    ((∀ k other, files !! k = Some other → k ≠ i →
        ∃ post, io_result (getPosts_file dir other) = Ok post) →
     e' = e).
Proof.
  intros Hdir Hname Hfail.
  set (settled := io_result <$> (getPosts_file dir <$> files)).
  assert (Hi : settled !! i = Some (Err e)).
  { unfold settled. by rewrite !list_lookup_fmap, Hname; simpl; rewrite Hfail. }
  destruct (Promise_all_one_rejected settle_order settled i e Hi) as (e' & j & Hall & Hj).
  unfold settled in Hj. rewrite !list_lookup_fmap in Hj.
  destruct (files !! j) as [name'|] eqn:Hname'; [|done]. simpl in Hj.
  injection Hj as Hj.
  exists e', j, name'. split; [|split; [done|split; [done|]]].
  - rewrite getPosts_result, Hdir. fold settled. by rewrite Hall.
  - intros Hothers. destruct (decide (j = i)) as [->|Hne].
    + rewrite Hname in Hname'. injection Hname' as <-. congruence.
    + destruct (Hothers j name' Hname' Hne) as [post Hpost]. congruence.
Qed.

(** C4 (amended): when [getPosts] succeeds and every id it returns
    coerces to a number, the list is sorted by descending numeric value of
    the ids: the number each id coerces to is greater than or equal to
    that of the next. *)
Theorem getPosts_sorted_descending dir posts :
  io_result (getPosts dir) = Ok posts →
  Forall numeric_id posts →
  descending_ids posts.
Proof.
  rewrite getPosts_result. intros Hposts Hnumeric.
  destruct (readdirSync dir) as [files|]; [|done].
  destruct (Promise_all _ _) as [unsorted|]; [|done].
  injection Hposts as <-.
  assert (Hunsorted : Forall numeric_id unsorted)
    by by rewrite sort_permutation in Hnumeric.
  pose proof (sort_sorted _ _ _ (by_id_descending_consistent unsorted Hunsorted))
    as Hsorted.
  apply StronglySorted_Sorted.
  induction Hsorted as [|post rest Hrest IH Hpost]; [constructor|].
  apply Forall_cons in Hnumeric as [Hhead Hnumeric].
  constructor; [by apply IH|].
  eapply Forall_impl.
  - apply Forall_and. split; [exact Hpost|exact Hnumeric].
  - intros later [Hlater Hnum]. by apply id_ge_not_lt.
Qed.
End getPosts_properties.

(** In the directory [drafts] the first file is valid and the header of
    the second has no author: the listing fails with the error of the
    second file. *)
Lemma getPosts_all_or_nothing_witness :
  (∃ post, io_result (@getPosts_file latin1 demo (u16 "drafts") (u16 "001.mdx")) = Ok post) ∧
  io_result (@getPosts latin1 demo (u16 "drafts")) =
    Err (ZodError [{| expected := u16 "string"; received := u16 "undefined";
                      path := [u16 "author"]; message := u16 "Author is required" |}]).
Proof.
  split; [eexists; vm_compute; reflexivity|].
  destruct (@getPosts_all_or_nothing latin1 demo (u16 "drafts")
              (u16 <$> ["001.mdx"; "002.mdx"]%string) 1 (u16 "002.mdx")
              (ZodError [{| expected := u16 "string"; received := u16 "undefined";
                            path := [u16 "author"];
                            message := u16 "Author is required" |}]))
    as (e' & j & name' & Hfails & _ & _ & Hsame).
  - reflexivity.
  - reflexivity.
  - reflexivity.
  - rewrite Hfails. f_equal. apply Hsame. intros k other Hk Hne.
    destruct k as [|[|k]]; [|done|done].
    injection Hk as <-. eexists. vm_compute. reflexivity.
Defined.

(** C4, as stated, fails: the listing of the directory [notes] succeeds
    with the posts [a] and [b], neither id coerces to a number, and the
    list is not in descending order of the coerced ids, in whichever order
    the two posts are returned. *)
Lemma getPosts_names_not_descending :
  ∃ posts,
    io_result (@getPosts latin1 demo (u16 "notes")) = Ok posts ∧
    PostMeta.id <$> posts = [u16 "a"; u16 "b"] ∧
    ∀ reordered, reordered ≡ₚ posts → ¬ @descending_ids integers reordered.
Proof.
  eexists. split; [vm_compute; reflexivity|]. split; [reflexivity|].
  intros reordered Hperm Hsorted. symmetry in Hperm.
  apply Permutation_length_2_inv in Hperm as [->| ->];
    apply Sorted_inv in Hsorted as [_ Hhd]; inversion Hhd as [|? ? Hge]; subst;
    vm_compute in Hge; discriminate.
Qed.

Lemma getPosts_sorted_descending_witness :
  ∃ posts,
    io_result (@getPosts latin1 demo blogDir) = Ok posts ∧
    PostMeta.id <$> posts = [u16 "002"; u16 "001"] ∧
    @descending_ids integers posts.
Proof.
  eexists. split; [vm_compute; reflexivity|]. split; [reflexivity|].
  apply (@getPosts_sorted_descending latin1 demo blogDir).
  - vm_compute. reflexivity.
  - repeat constructor.
Defined.


(** * Further properties of the module *)

(** ** [filenameToId]: the first occurrence of the extension *)

Lemma starts_with_app pat rest : starts_with pat (pat ++ rest) = true.
Proof.
  induction pat as [|p pat IH]; [done|].
  rewrite <- app_comm_cons, starts_with_cons, IH. by rewrite N.eqb_refl.
Qed.

(** No occurrence of the extension starts inside [s] when [s] is followed
    by the extension and more text. *)
Lemma starts_with_extension_middle c r rest :
  starts_with fileExtension (c :: r) = false →
  starts_with fileExtension ((c :: r) ++ fileExtension ++ rest) = false.
Proof.
  change fileExtension with [46; 109; 100; 120]%N.
  rewrite <- app_comm_cons, !starts_with_cons.
  destruct (46 =? c)%N; [|done].
  destruct r as [|c1 r]; [reflexivity|].
  rewrite <- app_comm_cons, !starts_with_cons. destruct (109 =? c1)%N; [|done].
  destruct r as [|c2 r]; [reflexivity|].
  rewrite <- app_comm_cons, !starts_with_cons. destruct (100 =? c2)%N; [|done].
  destruct r as [|c3 r]; [reflexivity|].
  rewrite <- app_comm_cons, !starts_with_cons. done.
Qed.

Lemma replace_first_found pat rep s :
  starts_with pat s = true → replace_first pat rep s = rep ++ drop (length pat) s.
Proof. intros Hs. destruct s; simpl; by rewrite Hs. Qed.

Lemma replace_first_extension_middle before rest :
  includes fileExtension before = false →
  replace_first fileExtension [] (before ++ fileExtension ++ rest) = before ++ rest.
Proof.
  induction before as [|c r IH].
  - intros _. rewrite !app_nil_l.
    rewrite replace_first_found by apply starts_with_app.
    by rewrite drop_app_length.
  - intros [Hhd Htl]%includes_cons.
    change (replace_first fileExtension [] ((c :: r) ++ fileExtension ++ rest))
      with (if starts_with fileExtension ((c :: r) ++ fileExtension ++ rest)
            then [] ++ drop (length fileExtension) ((c :: r) ++ fileExtension ++ rest)
            else c :: replace_first fileExtension [] (r ++ fileExtension ++ rest)).
    rewrite (starts_with_extension_middle _ _ _ Hhd). by rewrite IH.
Qed.

(** X1: [filenameToId] removes the first occurrence of the extension of the
    lowercased name, wherever it is, and keeps what follows it: when the
    lowercased name is [before ++ ".mdx" ++ rest] and [before] has no
    occurrence of the extension, the id is [before ++ rest]. *)
Theorem filenameToId_first_occurrence `{StringHost} (filename before rest : jsstring) :
  toLowerCase filename = before ++ fileExtension ++ rest →
  includes fileExtension before = false →
  filenameToId filename = before ++ rest.
Proof.
  intros Hlow Hbefore. unfold filenameToId. rewrite Hlow.
  by apply replace_first_extension_middle.
Qed.

Lemma filenameToId_first_occurrence_witness :
  @filenameToId latin1 (u16 "Draft.MDX.bak") = u16 "draft.bak" ∧
  @filenameToId latin1 (u16 "a.mdx.mdx") = u16 "a.mdx".
Proof.
  split.
  - apply (@filenameToId_first_occurrence latin1 (u16 "Draft.MDX.bak")
             (u16 "draft") (u16 ".bak")); reflexivity.
  - apply (@filenameToId_first_occurrence latin1 (u16 "a.mdx.mdx")
             (u16 "a") (u16 ".mdx")); reflexivity.
Defined.

(** ** [getFilename]: the names it can produce *)

Lemma span_first_stop cls a c b :
  cls c = false → (span cls (a ++ c :: b)).1 = (span cls a).1.
Proof.
  intros Hc. induction a as [|d a IH]; simpl.
  - by rewrite Hc.
  - destruct (cls d); [|done].
    destruct (span cls (a ++ c :: b)), (span cls a). simpl in *. by rewrite IH.
Qed.

Lemma fileExtension_no_hyphen : 45%N ∉ fileExtension.
Proof. apply (bool_decide_unpack _). by vm_compute. Qed.

(** X2: the names [getFilename] can return are exactly the strings made of
    a stem without a hyphen followed by the extension; a file whose stem
    has a hyphen is the answer to no slug. *)
Theorem getFilename_range (name : jsstring) :
  (∃ slug, getFilename slug = Ok name) ↔
  (∃ stem, name = stem ++ fileExtension ∧ 45%N ∉ stem).
Proof.
  split.
  - intros [slug Hslug]. rewrite getFilename_span in Hslug. injection Hslug as <-.
    exists (span not_hyphen slug).1. split; [done|].
    intros Hin. pose proof (span_matched not_hyphen slug) as Hm.
    rewrite Forall_forall in Hm. by specialize (Hm _ Hin).
  - intros (stem & -> & Hstem). exists stem. by apply getFilename_no_hyphen.
Qed.

(** X3: when the id of a file has a hyphen, the name recovered from its
    slug is the part of the id before its first hyphen, plus the
    extension, whatever the title: it is not the id plus the extension,
    and [getPost] reads that other file. *)
Theorem getFilename_slugify_hyphenated_id `{StringHost} `{Runtime}
    (dir filename title before after : jsstring) :
  filenameToId filename = before ++ 45%N :: after →
  45%N ∉ before →
  getFilename (slugify filename title) = Ok (before ++ fileExtension) ∧
  getFilename (slugify filename title) ≠ Ok (filenameToId filename ++ fileExtension) ∧
  io_log (getPost dir (slugify filename title))
    = [ReadFile (join dir (before ++ fileExtension))].
Proof.
  intros Hid Hbefore.
  assert (Hname : getFilename (slugify filename title) = Ok (before ++ fileExtension)).
  { unfold slugify. rewrite Hid, <- app_assoc. simpl app.
    change (before ++ 45%N :: after ++ 45%N ::
              replace_plus_g not_lower_alnum (u16 "-") (toLowerCase title))
      with (before ++ u16 "-" ++ (after ++ 45%N ::
              replace_plus_g not_lower_alnum (u16 "-") (toLowerCase title))).
    by apply getFilename_segment. }
  split; [done|]. split.
  - rewrite Hname, Hid. intros [= Heq]. rewrite <- app_assoc in Heq.
    apply app_inv_head in Heq. discriminate Heq.
  - rewrite getPost_log. rewrite getFilename_span in Hname. by injection Hname as ->.
Qed.

Lemma getFilename_slugify_hyphenated_id_witness :
  getFilename (@slugify latin1 (u16 "my-post.mdx") (u16 "Hello")) = Ok (u16 "my.mdx") ∧
  io_log (@getPost demo blogDir (@slugify latin1 (u16 "my-post.mdx") (u16 "Hello")))
    = [ReadFile (u16 "src/blog/my.mdx")].
Proof.
  destruct (@getFilename_slugify_hyphenated_id latin1 demo blogDir
              (u16 "my-post.mdx") (u16 "Hello") (u16 "my") (u16 "post"))
    as (Hname & _ & Hlog).
  - reflexivity.
  - apply (bool_decide_unpack _). by vm_compute.
  - split; [exact Hname|exact Hlog].
Defined.

(** ** [slugify]: the shape of the title part *)

Lemma span_rest_starts_outside cls s : starts_outside cls (span cls s).2.
Proof.
  destruct (span cls s).2 as [|c r] eqn:Hrest; [done|].
  simpl. by eapply span_rest_head.
Qed.

Lemma span_rest_shorter cls s : length (span cls s).2 ≤ length s.
Proof.
  pose proof (span_app cls s) as Happ. apply (f_equal length) in Happ.
  rewrite length_app in Happ. lia.
Qed.

Lemma replace_plus_g_starts_outside cls rep s :
  starts_outside cls s → starts_outside cls (replace_plus_g cls rep s).
Proof.
  destruct s as [|c r]; simpl; [by rewrite replace_plus_g_nil|].
  intros Hc. by rewrite replace_plus_g_outside.
Qed.

(** The result of the replacement is made of the code units outside the
    class and of those of the replacement. *)
Lemma replace_plus_g_units cls rep s :
  Forall (λ c, cls c = false ∨ c ∈ rep) (replace_plus_g cls rep s).
Proof.
  remember (length s) as n eqn:Hn. revert s Hn.
  induction n as [n IH] using lt_wf_ind. intros [|c r] ->.
  { rewrite replace_plus_g_nil. constructor. }
  destruct (cls c) eqn:Hc.
  - rewrite replace_plus_g_inside by done. apply Forall_app. split.
    + apply Forall_forall. intros d Hd. by right.
    + apply (IH (length (span cls r).2)); [|done].
      pose proof (span_rest_shorter cls r). simpl. lia.
  - rewrite replace_plus_g_outside by done. constructor; [by left|].
    apply (IH (length r)); [simpl; lia|done].
Qed.

Lemma includes_hyphens_cons c s :
  includes [45; 45]%N (c :: s) =
    ((45 =? c)%N && match s with d :: _ => (45 =? d)%N | [] => false end)
    || includes [45; 45]%N s.
Proof.
  destruct s as [|d s].
  { cbn [includes starts_with]. by rewrite !andb_false_r. }
  change (includes [45; 45]%N (c :: d :: s))
    with (starts_with [45; 45]%N (c :: d :: s) || includes [45; 45]%N (d :: s)).
  rewrite !starts_with_cons. simpl starts_with. by rewrite andb_true_r.
Qed.

(** Two hyphens never follow each other in the transformed title. *)
Lemma sluged_title_no_double_hyphen s :
  includes [45; 45]%N (replace_plus_g not_lower_alnum [45]%N s) = false.
Proof.
  remember (length s) as n eqn:Hn. revert s Hn.
  induction n as [n IH] using lt_wf_ind. intros [|c r] ->.
  { by rewrite replace_plus_g_nil. }
  destruct (not_lower_alnum c) eqn:Hc.
  - rewrite replace_plus_g_inside by done. simpl app.
    rewrite includes_hyphens_cons.
    rewrite (IH (length (span not_lower_alnum r).2)); [| |done].
    2: { pose proof (span_rest_shorter not_lower_alnum r). simpl. lia. }
    rewrite orb_false_r.
    pose proof (replace_plus_g_starts_outside not_lower_alnum [45]%N _
                  (span_rest_starts_outside not_lower_alnum r)) as Hout.
    destruct (replace_plus_g not_lower_alnum [45]%N (span not_lower_alnum r).2)
      as [|d rest]; [done|].
    simpl in Hout. destruct (N.eqb_spec 45 d) as [<-|]; [|done].
    by vm_compute in Hout.
  - rewrite replace_plus_g_outside by done.
    rewrite includes_hyphens_cons.
    rewrite (IH (length r)); [|simpl; lia|done].
    rewrite orb_false_r.
    destruct (N.eqb_spec 45 c) as [<-|]; [|done]. by vm_compute in Hc.
Qed.

(** X4: a slug is the id, a hyphen and a title part that is made of the
    characters [[a-z0-9]] and of hyphens only, in which two hyphens never
    follow each other; the id part is taken as it is. *)
Theorem slugify_title_part `{StringHost} (filename title : jsstring) :
  ∃ part : jsstring,
    slugify filename title = filenameToId filename ++ u16 "-" ++ part ∧
    Forall (λ c, is_lower_alnum c = true ∨ c = 45%N) part ∧
    includes (u16 "--") part = false.
Proof.
  exists (replace_plus_g not_lower_alnum (u16 "-") (toLowerCase title)).
  split; [done|]. split.
  - eapply Forall_impl; [apply replace_plus_g_units|].
    intros c [Hc|Hc].
    + left. unfold not_lower_alnum in Hc. by destruct (is_lower_alnum c).
    + right. by apply list_elem_of_singleton in Hc.
  - apply sluged_title_no_double_hyphen.
Qed.

(** Replacing the runs again changes nothing. *)
Lemma replace_plus_g_idempotent cls rep s :
  Forall (λ c, cls c = true) rep → rep ≠ [] →
  replace_plus_g cls rep (replace_plus_g cls rep s) = replace_plus_g cls rep s.
Proof.
  intros Hrep Hne.
  remember (length s) as n eqn:Hn. revert s Hn.
  induction n as [n IH] using lt_wf_ind. intros [|c r] ->.
  { by rewrite !replace_plus_g_nil. }
  destruct (cls c) eqn:Hc.
  - rewrite replace_plus_g_inside by done.
    set (rest := replace_plus_g cls rep (span cls r).2).
    assert (Hrest : replace_plus_g cls rep rest = rest).
    { apply (IH (length (span cls r).2)); [|done].
      pose proof (span_rest_shorter cls r). simpl. lia. }
    assert (Hout : starts_outside cls rest).
    { apply replace_plus_g_starts_outside, span_rest_starts_outside. }
    destruct rep as [|d rep]; [done|].
    apply Forall_cons in Hrep as [Hd Hrep].
    rewrite <- app_comm_cons, replace_plus_g_inside by done. f_equal.
    assert (Hspan : (span cls (rep ++ rest)).2 = rest).
    { destruct rest as [|e rest'].
      - rewrite app_nil_r. by rewrite (span_all cls rep Hrep).
      - by rewrite (span_stop cls rep e rest' Hrep Hout). }
    by rewrite Hspan, Hrest.
  - rewrite replace_plus_g_outside by done.
    rewrite replace_plus_g_outside by done. f_equal.
    apply (IH (length r)); [simpl; lia|done].
Qed.

(** X5: the title part of a slug is a title that [slugify] leaves as it
    is: when lowercasing does not change it, giving it back to [slugify]
    as the title yields the same slug. *)
Theorem slugify_title_part_stable `{StringHost} (filename title part : jsstring) :
  slugify filename title = filenameToId filename ++ u16 "-" ++ part →
  toLowerCase part = part →
  slugify filename part = slugify filename title.
Proof.
  intros Hslug Hlow. unfold slugify in *.
  apply app_inv_head in Hslug. apply app_inv_head in Hslug.
  rewrite Hlow, <- Hslug. do 2 f_equal.
  apply replace_plus_g_idempotent; [by repeat constructor|done].
Qed.

Lemma slugify_title_part_stable_witness :
  @slugify latin1 (u16 "001.mdx") (u16 "hello-world")
  = @slugify latin1 (u16 "001.mdx") (u16 "Hello,  World").
Proof.
  apply (@slugify_title_part_stable latin1 (u16 "001.mdx") (u16 "Hello,  World")
           (u16 "hello-world")); reflexivity.
Defined.

(** ** The schemas: what is reported and what is returned *)

Lemma shape_ap_issues {A B} (f : shape (A → B)) (x : shape A)
    (p : list jsstring) (props : gmap jsstring jsval) :
  issues_of ((f <*> x) p props) = issues_of (f p props) ++ issues_of (x p props).
Proof.
  unfold shape_ap. destruct (f p props), (x p props); simpl; by rewrite ?app_nil_r.
Qed.

Lemma shape_ap_rejects {A B} (f : shape (A → B)) (x : shape A)
    (p : list jsstring) (props : gmap jsstring jsval) :
  rejects_with_issue (f p props) → rejects_with_issue (x p props) →
  rejects_with_issue ((f <*> x) p props).
Proof.
  unfold shape_ap. destruct (f p props) as [[|i more]|g], (x p props) as [[|j more']|a]; done.
Qed.

Lemma key_string_issues (k : jsstring) (required_error : option jsstring)
    (props : gmap jsstring jsval) :
  issues_of (key k (z_string required_error) [] props)
    = string_issues k required_error props ∧
  rejects_with_issue (key k (z_string required_error) [] props).
Proof.
  unfold key, string_issues, z_string.
  by destruct (default JUndefined (props !! k)).
Qed.

Lemma key_optional_string_issues (k : jsstring) (props : gmap jsstring jsval) :
  issues_of (key k (z_optional (z_string None)) [] props)
    = optional_string_issues k props ∧
  rejects_with_issue (key k (z_optional (z_string None)) [] props).
Proof.
  unfold key, optional_string_issues, z_optional, z_string.
  by destruct (default JUndefined (props !! k)).
Qed.

Lemma frontmatter_keys_issues {B}
    (b : jsstring → jsstring → jsstring → jsstring → option jsstring → B)
    (props : gmap jsstring jsval) :
  issues_of (frontmatter_keys (shape_pure b) [] props) = frontmatter_issues props ∧
  rejects_with_issue (frontmatter_keys (shape_pure b) [] props).
Proof.
  unfold frontmatter_keys, frontmatter_issues.
  destruct (key_string_issues (u16 "title") (Some (u16 "Title is required")) props)
    as [Ht Ht'].
  destruct (key_string_issues (u16 "date") (Some (u16 "Date is required")) props)
    as [Hd Hd'].
  destruct (key_string_issues (u16 "description")
              (Some (u16 "Description is required")) props) as [Hs Hs'].
  destruct (key_string_issues (u16 "author") (Some (u16 "Author is required")) props)
    as [Ha Ha'].
  destruct (key_optional_string_issues (u16 "github") props) as [Hg Hg'].
  split.
  - rewrite !shape_ap_issues, Ht, Hd, Hs, Ha, Hg. simpl. by rewrite <- !app_assoc.
  - by repeat apply shape_ap_rejects.
Qed.

Lemma validation_no_issue {A} (v : validation A) :
  rejects_with_issue v → issues_of v = [] → ∃ a, v = inr a.
Proof. destruct v as [[|i more]|a]; simpl; [done|done|by eexists]. Qed.

(** The outcome of the base schema on an object, in terms of the issues
    of its keys. *)
Lemma frontmatterSchema_outcome (props : gmap jsstring jsval) :
  match parse frontmatterSchema (JObject props) with
  | Ok _ => frontmatter_issues props = []
  | Err e => e = ZodError (frontmatter_issues props) ∧ frontmatter_issues props ≠ []
  end.
Proof.
  destruct (frontmatter_keys_issues FrontMatter.Build props) as [Hissues Hrejects].
  unfold parse, frontmatterSchema, z_object.
  destruct (frontmatter_keys (shape_pure FrontMatter.Build) [] props) as [issues|fm];
    simpl in *.
  - subst issues. split; [done|]. by destruct (frontmatter_issues props).
  - done.
Qed.

(** X6: the base schema reports the issues of all the keys of a header at
    once, in the order title, date, description, author, github: a header
    is rejected exactly when one of its keys has an issue, and the error
    then holds the issues of every key. *)
Theorem frontmatterSchema_reports_every_key (props : gmap jsstring jsval) :
  (frontmatter_issues props = [] → ∃ fm, parse frontmatterSchema (JObject props) = Ok fm) ∧
  (frontmatter_issues props ≠ [] →
   parse frontmatterSchema (JObject props) = Err (ZodError (frontmatter_issues props))).
Proof.
  pose proof (frontmatterSchema_outcome props) as Hout.
  destruct (parse frontmatterSchema (JObject props)) as [fm|e].
  - split; [by eexists|done].
  - destruct Hout as [-> Hne]. split; [done|done].
Qed.

Lemma frontmatterSchema_reports_every_key_witness :
  parse frontmatterSchema (JObject (<[u16 "date" := JNumber (Num 2024)]> ∅)) =
    Err (ZodError [
      {| expected := u16 "string"; received := u16 "undefined";
         path := [u16 "title"]; message := u16 "Title is required" |};
      {| expected := u16 "string"; received := u16 "number";
         path := [u16 "date"]; message := u16 "Expected string, received number" |};
      {| expected := u16 "string"; received := u16 "undefined";
         path := [u16 "description"]; message := u16 "Description is required" |};
      {| expected := u16 "string"; received := u16 "undefined";
         path := [u16 "author"]; message := u16 "Author is required" |}]) ∧
  (∃ fm, parse frontmatterSchema
           (header [("title", "t"); ("date", "d"); ("description", "s");
                    ("author", "a"); ("extra", "x")]%string) = Ok fm).
Proof.
  split.
  - rewrite (proj2 (frontmatterSchema_reports_every_key
                      (<[u16 "date" := JNumber (Num 2024)]> ∅))).
    + reflexivity.
    + vm_compute. discriminate.
  - apply (proj1 (frontmatterSchema_reports_every_key
             (list_to_map ((λ kv : string * string, (u16 kv.1, JString (u16 kv.2)))
                <$> [("title", "t"); ("date", "d"); ("description", "s");
                     ("author", "a"); ("extra", "x")]%string)))).
    reflexivity.
Defined.

Lemma string_issues_wrong_type (k : jsstring) (required_error : option jsstring)
    (props : gmap jsstring jsval) (v : jsval) :
  props !! k = Some v → (∀ s, v ≠ JString s) → v ≠ JUndefined →
  string_issues k required_error props =
    [{| expected := u16 "string"; received := parsed_type v; path := [k];
        message := u16 "Expected string, received " ++ parsed_type v |}].
Proof.
  intros Hk Hstring Hundefined. unfold string_issues. rewrite Hk. simpl.
  destruct v; try done. by destruct (Hstring s).
Qed.

(** X7: the messages "... is required" are for missing keys only. A
    required key that holds a value that is not a text (a number, a list,
    [null], ...) makes the header rejected, with the issue "Expected
    string, received <type>" for that key. *)
Theorem frontmatterSchema_wrong_type (props : gmap jsstring jsval)
    (k msg : jsstring) (v : jsval) :
  (k, msg) ∈ required_messages →
  props !! k = Some v →
  (∀ s, v ≠ JString s) →
  v ≠ JUndefined →
  ∃ issues,
    parse frontmatterSchema (JObject props) = Err (ZodError issues) ∧
    {| expected := u16 "string"; received := parsed_type v; path := [k];
       message := u16 "Expected string, received " ++ parsed_type v |} ∈ issues.
Proof.
  intros Hk Hv Hstring Hundefined.
  assert (Hin : {| expected := u16 "string"; received := parsed_type v; path := [k];
                   message := u16 "Expected string, received " ++ parsed_type v |}
                ∈ frontmatter_issues props).
  { unfold frontmatter_issues, required_messages in *.
    repeat (apply elem_of_cons in Hk as [[= -> ->]|Hk];
      [rewrite (string_issues_wrong_type _ _ props v Hv Hstring Hundefined);
       rewrite !elem_of_app, list_elem_of_singleton; tauto|]).
    by apply elem_of_nil in Hk. }
  exists (frontmatter_issues props). split; [|done].
  pose proof (frontmatterSchema_outcome props) as Hout.
  destruct (parse frontmatterSchema (JObject props)) as [fm|e].
  - rewrite Hout in Hin. by apply elem_of_nil in Hin.
  - by destruct Hout as [-> _].
Qed.

Lemma frontmatterSchema_wrong_type_witness :
  ∃ issues,
    parse frontmatterSchema
      (JObject (<[u16 "title" := JNumber (Num 7)]> ∅)) = Err (ZodError issues) ∧
    {| expected := u16 "string"; received := u16 "number"; path := [u16 "title"];
       message := u16 "Expected string, received number" |} ∈ issues.
Proof.
  apply (frontmatterSchema_wrong_type (<[u16 "title" := JNumber (Num 7)]> ∅)
           (u16 "title") (u16 "Title is required") (JNumber (Num 7))).
  - apply list_elem_of_here.
  - reflexivity.
  - discriminate.
  - discriminate.
Defined.

(** X8: "Post not found" is for an absent header only. A header that is
    present but is not an object ([null], a text, a number, a list) is
    rejected with the one issue "Expected object, received <type>". *)
Theorem frontmatterSchema_not_object (v : jsval) :
  (∀ props, v ≠ JObject props) →
  v ≠ JUndefined →
  parse frontmatterSchema v =
    Err (ZodError [{| expected := u16 "object"; received := parsed_type v; path := [];
                      message := u16 "Expected object, received " ++ parsed_type v |}]).
Proof.
  intros Hobject Hundefined. destruct v; try done. by destruct (Hobject props).
Qed.

Lemma frontmatterSchema_not_object_witness :
  parse frontmatterSchema (JString (u16 "title: Hello")) =
    Err (ZodError [{| expected := u16 "object"; received := u16 "string"; path := [];
                      message := u16 "Expected object, received string" |}]).
Proof.
  apply (frontmatterSchema_not_object (JString (u16 "title: Hello"))); discriminate.
Defined.

Lemma key_string_inr (k : jsstring) (required_error : option jsstring)
    (props : gmap jsstring jsval) (t : jsstring) :
  key k (z_string required_error) [] props = inr t ↔
  default JUndefined (props !! k) = JString t.
Proof.
  unfold key, z_string. destruct (default JUndefined (props !! k)); split; try done.
  - by intros [= ->].
  - by intros [= ->].
Qed.

Lemma key_optional_string_inr (k : jsstring) (props : gmap jsstring jsval)
    (g : option jsstring) :
  key k (z_optional (z_string None)) [] props = inr g ↔
  default JUndefined (props !! k) = from_option JString JUndefined g.
Proof.
  unfold key, z_optional, z_string.
  destruct (default JUndefined (props !! k)), g; split; try done.
  - by intros [= ->].
  - by intros [= ->].
Qed.

(** The keys of the base shape succeed exactly when each of them does, and
    the builder is then applied to their outputs. *)
Lemma frontmatter_keys_inr {B}
    (b : jsstring → jsstring → jsstring → jsstring → option jsstring → B)
    (props : gmap jsstring jsval) (r : B) :
  frontmatter_keys (shape_pure b) [] props = inr r ↔
  ∃ fm, parse frontmatterSchema (JObject props) = Ok fm ∧
        r = b (FrontMatter.title fm) (FrontMatter.date fm) (FrontMatter.description fm)
              (FrontMatter.author fm) (FrontMatter.github fm).
Proof.
  unfold parse, frontmatterSchema, z_object, frontmatter_keys, shape_ap, shape_pure.
  destruct (key (u16 "title") _ [] props) as [?|t];
    destruct (key (u16 "date") _ [] props) as [?|d];
    destruct (key (u16 "description") _ [] props) as [?|ds];
    destruct (key (u16 "author") _ [] props) as [?|a];
    destruct (key (u16 "github") _ [] props) as [?|g];
    (split; [try done|try by intros (fm & [=] & _)]).
  - intros [= <-]. by eexists.
  - by intros (fm & [= <-] & ->).
Qed.

(** X9: the base schema accepts an object exactly when its four required
    keys hold texts and [github] is missing or holds a text, and its output
    holds those texts: nothing is trimmed, defaulted or converted, and the
    other keys of the header are dropped. *)
Theorem frontmatterSchema_output (props : gmap jsstring jsval) (fm : FrontMatter.t) :
  parse frontmatterSchema (JObject props) = Ok fm ↔
  default JUndefined (props !! u16 "title") = JString (FrontMatter.title fm) ∧
  default JUndefined (props !! u16 "date") = JString (FrontMatter.date fm) ∧
  default JUndefined (props !! u16 "description") = JString (FrontMatter.description fm) ∧
  default JUndefined (props !! u16 "author") = JString (FrontMatter.author fm) ∧
  default JUndefined (props !! u16 "github")
    = from_option JString JUndefined (FrontMatter.github fm).
Proof.
  rewrite <- !key_string_inr
    with (required_error := Some (u16 "Title is required")) (k := u16 "title").
  rewrite <- !key_string_inr
    with (required_error := Some (u16 "Date is required")) (k := u16 "date").
  rewrite <- !key_string_inr
    with (required_error := Some (u16 "Description is required")) (k := u16 "description").
  rewrite <- !key_string_inr
    with (required_error := Some (u16 "Author is required")) (k := u16 "author").
  rewrite <- key_optional_string_inr.
  unfold parse, frontmatterSchema, z_object, frontmatter_keys, shape_ap, shape_pure.
  destruct fm as [t d ds a g]. simpl.
  destruct (key (u16 "title") _ [] props) as [?|t'];
    destruct (key (u16 "date") _ [] props) as [?|d'];
    destruct (key (u16 "description") _ [] props) as [?|ds'];
    destruct (key (u16 "author") _ [] props) as [?|a'];
    destruct (key (u16 "github") _ [] props) as [?|g'];
    (split; [try done|try by intros ([=] & [=] & [=] & [=] & [=])]).
  - by intros [= -> -> -> -> ->].
  - by intros ([= ->] & [= ->] & [= ->] & [= ->] & [= ->]).
Qed.

(** X10: the extended schema accepts an object exactly when the base
    schema accepts it and the keys [id] and [slug] hold texts; its output
    is the output of the base schema with those two texts. *)
Theorem metaSchema_extends_frontmatterSchema (props : gmap jsstring jsval)
    (m : PostMeta.t) :
  parse metaSchema (JObject props) = Ok m ↔
  parse frontmatterSchema (JObject props) = Ok (PostMeta_frontmatter m) ∧
  default JUndefined (props !! u16 "id") = JString (PostMeta.id m) ∧
  default JUndefined (props !! u16 "slug") = JString (PostMeta.slug m).
Proof.
  rewrite <- (key_string_inr (u16 "id") None), <- (key_string_inr (u16 "slug") None).
  unfold parse at 1, metaSchema, z_object, shape_ap at 1 2.
  fold metaSchema_shape_id metaSchema_shape_slug.
  change metaSchema_shape_id with (z_string None).
  change metaSchema_shape_slug with (z_string None).
  destruct (frontmatter_keys (shape_pure PostMeta.Build) [] props) as [issues|b] eqn:Hb.
  - split.
    + by destruct (key (u16 "id") _ [] props), (key (u16 "slug") _ [] props).
    + intros (Hfm & _ & _).
      assert (Hb' : ∃ r, frontmatter_keys (shape_pure PostMeta.Build) [] props = inr r).
      { eexists. apply frontmatter_keys_inr. by eexists. }
      destruct Hb' as [r Hr]. by rewrite Hr in Hb.
  - apply frontmatter_keys_inr in Hb as (fm & Hfm & ->). rewrite Hfm.
    destruct m as [t d ds a g i s]. unfold PostMeta_frontmatter. simpl.
    destruct fm as [t' d' ds' a' g']. simpl.
    destruct (key (u16 "id") _ [] props) as [?|i'];
      destruct (key (u16 "slug") _ [] props) as [?|s'];
      (split; [try done|try by intros (_ & [=] & [=])]).
    + by intros [= -> -> -> -> -> -> ->].
    + by intros ([= -> -> -> -> ->] & [= ->] & [= ->]).
Qed.

Lemma metaSchema_meta_literal (fm : FrontMatter.t) (id slug : jsstring) :
  parse metaSchema (meta_literal fm id slug) =
    Ok (PostMeta.Build (FrontMatter.title fm) (FrontMatter.date fm)
          (FrontMatter.description fm) (FrontMatter.author fm) (FrontMatter.github fm)
          id slug).
Proof. destruct fm as [t d ds a [g|]]; reflexivity. Qed.

Lemma frontmatterSchema_output_witness :
  parse frontmatterSchema
    (header [("title", "Hello World"); ("date", "2024-01-01"); ("description", "d");
             ("author", "a"); ("draft", "yes")]%string)
  = Ok (FrontMatter.Build (u16 "Hello World") (u16 "2024-01-01") (u16 "d") (u16 "a") None).
Proof.
  apply (frontmatterSchema_output
           (list_to_map ((λ kv : string * string, (u16 kv.1, JString (u16 kv.2)))
              <$> [("title", "Hello World"); ("date", "2024-01-01"); ("description", "d");
                   ("author", "a"); ("draft", "yes")]%string))
           (FrontMatter.Build (u16 "Hello World") (u16 "2024-01-01") (u16 "d")
              (u16 "a") None)).
  repeat split; reflexivity.
Defined.

Lemma metaSchema_extends_frontmatterSchema_witness :
  parse metaSchema
    (header [("title", "t"); ("date", "d"); ("description", "s"); ("author", "a");
             ("id", "001"); ("slug", "001-t")]%string)
  = Ok (PostMeta.Build (u16 "t") (u16 "d") (u16 "s") (u16 "a") None
          (u16 "001") (u16 "001-t")).
Proof.
  apply (metaSchema_extends_frontmatterSchema
           (list_to_map ((λ kv : string * string, (u16 kv.1, JString (u16 kv.2)))
              <$> [("title", "t"); ("date", "d"); ("description", "s"); ("author", "a");
                   ("id", "001"); ("slug", "001-t")]%string))
           (PostMeta.Build (u16 "t") (u16 "d") (u16 "s") (u16 "a") None
              (u16 "001") (u16 "001-t"))).
  repeat split; reflexivity.
Defined.

Lemma getFilename_range_witness :
  ∃ slug, getFilename slug = Ok (u16 "001.mdx").
Proof.
  apply (getFilename_range (u16 "001.mdx")).
  exists (u16 "001"). split; [reflexivity|].
  apply (bool_decide_unpack _). by vm_compute.
Defined.

(** ** [getPosts]: what a listing holds *)

Section listing.
Context `{StringHost} `{Runtime}.

(** X11: the second validation of [getPosts] cannot fail: the object that
    [getPosts] builds from a validated header, an id and a slug is accepted
    by the extended schema, which returns these very fields. *)
Theorem metaSchema_accepts_derived (filename : jsstring) (fm : FrontMatter.t) :
  parse metaSchema
    (meta_literal fm (filenameToId filename) (slugify filename (FrontMatter.title fm)))
  = Ok (derived_post filename fm).
Proof. apply metaSchema_meta_literal. Qed.

Lemma getPosts_file_outcome (dir name : jsstring) :
  io_result (getPosts_file dir name) =
    (text ← readFileSync (join dir name) (u16 "utf-8");
     compiled ← compileMDX {|
       source := text;
       options := {| parseFrontmatter := true; rehypePlugins := [] |};
       mdx_components := None |};
     fm ← parse frontmatterSchema (frontmatter compiled);
     mret (derived_post name fm)).
Proof.
  unfold getPosts_file, mbind, IO_bind, result_bind, io_readFileSync, lift. simpl.
  destruct (readFileSync _ _) as [text|]; simpl; [|done].
  destruct (compileMDX _) as [compiled|]; simpl; [|done].
  destruct (parse frontmatterSchema _) as [fm|]; simpl; [|done].
  apply metaSchema_meta_literal.
Qed.

(** X12: the entry of a file. When the file is read, compiled and its
    header is accepted by the base schema, the entry holds the texts of the
    header, the id [filenameToId name] and the slug
    [slugify name title]; when the header is rejected, the task fails
    with the error of the base schema. *)
Theorem getPosts_file_entry (dir name text : jsstring) (compiled : CompileMDXResult) :
  readFileSync (join dir name) (u16 "utf-8") = Ok text →
  compileMDX {|
    source := text;
    options := {| parseFrontmatter := true; rehypePlugins := [] |};
    mdx_components := None |} = Ok compiled →
  io_result (getPosts_file dir name) =
    match parse frontmatterSchema (frontmatter compiled) with
    | Ok fm => Ok (derived_post name fm)
    | Err e => Err e
    end.
Proof.
  intros Hread Hcompile. rewrite getPosts_file_outcome, Hread. simpl.
  rewrite Hcompile. simpl. by destruct (parse frontmatterSchema _).
Qed.

Lemma getPosts_file_derived (dir name : jsstring) (post : PostMeta.t) :
  io_result (getPosts_file dir name) = Ok post →
  PostMeta.id post = filenameToId name ∧
  PostMeta.slug post = slugify name (PostMeta.title post).
Proof.
  rewrite getPosts_file_outcome. unfold mbind, result_bind.
  destruct (readFileSync _ _) as [text|]; [|done].
  destruct (compileMDX _) as [compiled|]; [|done].
  destruct (parse frontmatterSchema _) as [fm|]; [|done].
  by intros [= <-].
Qed.

Lemma first_rejection_fulfilled {A} order (values : list A) :
  first_rejection order (Ok <$> values) = None.
Proof.
  induction order as [|i later IH]; simpl; [done|].
  rewrite list_lookup_fmap. by destruct (values !! i).
Qed.

Lemma all_fulfilled_fmap {A} (values : list A) :
  all_fulfilled (Ok <$> values) = Ok values.
Proof.
  induction values as [|a values IH]; [done|].
  rewrite fmap_cons. cbn [all_fulfilled]. by rewrite IH.
Qed.

Lemma fmap_Ok_inj {A} (l l' : list A) :
  (Ok <$> l : list (result A)) = Ok <$> l' → l = l'.
Proof.
  revert l'. induction l as [|a l IH]; intros [|a' l']; try done.
  rewrite !fmap_cons. intros [= -> Hl]. f_equal. by apply IH.
Qed.

Lemma Promise_all_fulfilled_iff {A} order (settled : list (result A)) values :
  Promise_all order settled = Ok values ↔ settled = Ok <$> values.
Proof.
  split; [apply Promise_all_fulfilled|].
  intros ->. unfold Promise_all. by rewrite first_rejection_fulfilled, all_fulfilled_fmap.
Qed.

Lemma tasks_fulfilled (dir : jsstring) (files : list jsstring) (entries : list PostMeta.t) :
  io_result <$> (getPosts_file dir <$> files) = Ok <$> entries ↔
  Forall2 (λ name entry, io_result (getPosts_file dir name) = Ok entry) files entries.
Proof.
  revert entries. induction files as [|name files IH]; intros [|entry entries].
  - split; [constructor|done].
  - split; [done|]. intros Hall. inversion Hall.
  - split; [done|]. intros Hall. inversion Hall.
  - rewrite !fmap_cons. split.
    + intros [= Hhd Htl]. constructor; [done|]. by apply IH.
    + intros Hall. inversion Hall as [|? ? ? ? Hhd Htl]; subst.
      rewrite Hhd. f_equal. by apply IH.
Qed.

(** X13: a listing succeeds exactly when every file of the directory
    yields an entry, whatever the order in which the tasks settle, and it
    is then the sorted list of those entries. *)
Theorem getPosts_success (dir : jsstring) (files : list jsstring)
    (posts : list PostMeta.t) :
  readdirSync dir = Ok files →
  io_result (getPosts dir) = Ok posts ↔
  ∃ entries,
    Forall2 (λ name entry, io_result (getPosts_file dir name) = Ok entry) files entries ∧
    posts = sort by_id_descending entries.
Proof.
  intros Hdir. rewrite getPosts_result, Hdir.
  destruct (Promise_all _ _) as [entries|e] eqn:Hall.
  - apply Promise_all_fulfilled_iff, tasks_fulfilled in Hall. split.
    + intros [= <-]. by exists entries.
    + intros (entries' & Hall' & ->). do 2 f_equal.
      apply tasks_fulfilled in Hall, Hall'. rewrite Hall in Hall'.
      by apply fmap_Ok_inj in Hall'.
  - split; [done|]. intros (entries & Hentries & _).
    apply tasks_fulfilled, (Promise_all_fulfilled_iff settle_order) in Hentries.
    by rewrite Hentries in Hall.
Qed.

(** X14: a listing has exactly one post per name of the directory: the
    names, taken in the order of the directory, yield one entry each, with
    the id [filenameToId name] and the slug [slugify name title], and
    the listing is a rearrangement of these entries. No name is filtered
    out, whatever its extension, no entry is dropped and none is
    repeated. *)
Theorem getPosts_one_post_per_file (dir : jsstring) (files : list jsstring)
    (posts : list PostMeta.t) :
  readdirSync dir = Ok files →
  io_result (getPosts dir) = Ok posts →
  ∃ entries,
    Forall2 (λ name entry,
               io_result (getPosts_file dir name) = Ok entry ∧
               PostMeta.id entry = filenameToId name ∧
               PostMeta.slug entry = slugify name (PostMeta.title entry))
            files entries ∧
    posts ≡ₚ entries ∧
    length posts = length files.
Proof.
  intros Hdir Hposts. rewrite getPosts_result, Hdir in Hposts.
  destruct (Promise_all _ _) as [entries|e] eqn:Hall; [|done].
  injection Hposts as <-.
  apply Promise_all_fulfilled_iff, tasks_fulfilled in Hall.
  exists entries. split; [|split].
  - eapply Forall2_impl; [exact Hall|]. intros name entry Hentry.
    split; [done|]. exact (getPosts_file_derived dir name entry Hentry).
  - apply sort_permutation.
  - rewrite (sort_permutation _ by_id_descending entries).
    symmetry. by eapply Forall2_length.
Qed.

(** X15: the posts of a listing link back to their files. For a post of
    the listing whose id has no hyphen, [getPost] called with the slug of
    the post reads the file named by the id and the extension; when the
    name of the file is its id followed by the extension, that is the very
    file the listing read for the post. *)
Theorem getPosts_slug_opens_file (dir : jsstring) (files : list jsstring)
    (posts : list PostMeta.t) (post : PostMeta.t) :
  readdirSync dir = Ok files →
  io_result (getPosts dir) = Ok posts →
  post ∈ posts →
  45%N ∉ PostMeta.id post →
  io_log (getPost dir (PostMeta.slug post))
    = [ReadFile (join dir (PostMeta.id post ++ fileExtension))] ∧
  ∃ name, name ∈ files ∧ io_result (getPosts_file dir name) = Ok post ∧
    (name = filenameToId name ++ fileExtension →
     io_log (getPost dir (PostMeta.slug post)) = [ReadFile (join dir name)]).
Proof.
  intros Hdir Hposts Hpost Hid.
  rewrite getPosts_result, Hdir in Hposts.
  destruct (Promise_all _ _) as [entries|e] eqn:Hall; [|done].
  injection Hposts as <-.
  apply Promise_all_fulfilled_iff, tasks_fulfilled in Hall.
  rewrite (sort_permutation _ by_id_descending entries) in Hpost.
  apply list_elem_of_lookup in Hpost as [i Hi].
  destruct (Forall2_lookup_r _ _ _ _ _ Hall Hi) as (name & Hname & Hentry).
  destruct (getPosts_file_derived dir name post Hentry) as [Hid' Hslug].
  assert (Hlog : io_log (getPost dir (PostMeta.slug post))
                 = [ReadFile (join dir (PostMeta.id post ++ fileExtension))]).
  { rewrite getPost_log, Hslug. unfold slugify. rewrite <- Hid'.
    change (u16 "-" ++ ?x) with (45%N :: x).
    by rewrite (span_stop not_hyphen _ 45 _ (not_hyphen_Forall _ Hid)). }
  split; [done|]. exists name. split; [by eapply list_elem_of_lookup_2|].
  split; [done|]. intros Hname'. by rewrite Hlog, Hid', <- Hname'.
Qed.

(** X16: a listing reads the directory and then every file of it, in the
    order of the directory and whatever happens to the other files: a file
    that fails does not stop the reads of the files after it. When the
    directory cannot be read, the listing fails with that error and reads
    no file. *)
Theorem getPosts_reads (dir : jsstring) :
  (∀ files, readdirSync dir = Ok files →
     io_log (getPosts dir)
       = ReadDir dir :: ((λ name, ReadFile (join dir name)) <$> files)) ∧
  (∀ e, readdirSync dir = Err e → getPosts dir = MkIO [ReadDir dir] (Err e)).
Proof.
  split.
  - apply getPosts_log.
  - intros e Hdir. unfold getPosts, mbind, IO_bind, io_readdirSync. simpl.
    by rewrite Hdir.
Qed.

(** X17: the listing of an empty directory is the empty list. *)
Theorem getPosts_empty_directory (dir : jsstring) :
  readdirSync dir = Ok [] → getPosts dir = MkIO [ReadDir dir] (Ok []).
Proof.
  intros Hdir. unfold getPosts, mbind, IO_bind, io_readdirSync, await_all. simpl.
  rewrite Hdir. simpl.
  assert (Hall : Promise_all settle_order [] = Ok (@nil PostMeta.t))
    by by apply Promise_all_fulfilled_iff.
  rewrite Hall. simpl. do 2 f_equal.
  apply Permutation_nil_r, sort_permutation.
Qed.
End listing.

Lemma getPosts_file_entry_witness :
  io_result (@getPosts_file latin1 demo blogDir (u16 "001.mdx")) =
    Ok (PostMeta.Build (u16 "Hello World") (u16 "2024-01-01") (u16 "d") (u16 "a") None
          (u16 "001") (u16 "001-hello-world")).
Proof.
  rewrite (@getPosts_file_entry latin1 demo blogDir (u16 "001.mdx") (u16 "hello")
             {| content := u16 "hello";
                frontmatter :=
                  header [("title", "Hello World"); ("date", "2024-01-01");
                          ("description", "d"); ("author", "a")]%string |});
    reflexivity.
Defined.

Lemma getPosts_success_witness :
  ∃ posts,
    io_result (@getPosts latin1 demo blogDir) = Ok posts ∧
    PostMeta.slug <$> posts = [u16 "002-second-post"; u16 "001-hello-world"].
Proof.
  eexists. split.
  - apply (@getPosts_success latin1 demo blogDir (u16 <$> ["001.mdx"; "002.mdx"]%string));
      [reflexivity|].
    eexists. split.
    + repeat constructor.
    + reflexivity.
  - reflexivity.
Defined.

Lemma getPosts_one_post_per_file_witness :
  ∃ posts entries,
    io_result (@getPosts latin1 demo blogDir) = Ok posts ∧
    PostMeta.id <$> entries = [u16 "001"; u16 "002"] ∧
    posts ≡ₚ entries.
Proof.
  eexists.
  destruct (@getPosts_one_post_per_file latin1 demo blogDir
              (u16 <$> ["001.mdx"; "002.mdx"]%string) _ eq_refl eq_refl)
    as (entries & Hentries & Hperm & _).
  exists entries. split; [reflexivity|]. split; [|exact Hperm].
  inversion Hentries as [|? first ? rest [_ [Hfirst _]] Hrest]; subst.
  inversion Hrest as [|? second ? rest' [_ [Hsecond _]] Hrest']; subst.
  inversion Hrest'; subst.
  rewrite !fmap_cons, Hfirst, Hsecond. reflexivity.
Defined.

Lemma getPosts_slug_opens_file_witness :
  io_log (@getPost demo blogDir (u16 "001-hello-world"))
    = [ReadFile (u16 "src/blog/001.mdx")].
Proof.
  destruct (@getPosts_slug_opens_file latin1 demo blogDir
              (u16 <$> ["001.mdx"; "002.mdx"]%string)
              [PostMeta.Build (u16 "Second Post") (u16 "2024-02-01") (u16 "d") (u16 "a")
                 (Some (u16 "ekqt")) (u16 "002") (u16 "002-second-post");
               PostMeta.Build (u16 "Hello World") (u16 "2024-01-01") (u16 "d") (u16 "a")
                 None (u16 "001") (u16 "001-hello-world")]
              (PostMeta.Build (u16 "Hello World") (u16 "2024-01-01") (u16 "d") (u16 "a")
                 None (u16 "001") (u16 "001-hello-world")))
    as [Hlog _].
  - reflexivity.
  - reflexivity.
  - apply list_elem_of_further, list_elem_of_here.
  - apply (bool_decide_unpack _). by vm_compute.
  - exact Hlog.
Defined.

(** In [drafts] the second file is rejected, and both files are read; the
    directory [nowhere] does not exist. *)
Lemma getPosts_reads_witness :
  io_log (@getPosts latin1 demo (u16 "drafts"))
    = [ReadDir (u16 "drafts"); ReadFile (u16 "drafts/001.mdx");
       ReadFile (u16 "drafts/002.mdx")] ∧
  @getPosts latin1 demo (u16 "nowhere")
    = MkIO [ReadDir (u16 "nowhere")] (Err (HostError (u16 "ENOENT"))).
Proof.
  destruct (@getPosts_reads latin1 demo (u16 "drafts")) as [Hfiles _].
  destruct (@getPosts_reads latin1 demo (u16 "nowhere")) as [_ Hmissing].
  split.
  - rewrite (Hfiles (u16 <$> ["001.mdx"; "002.mdx"]%string)); reflexivity.
  - rewrite (Hmissing (HostError (u16 "ENOENT"))); reflexivity.
Defined.

Lemma getPosts_empty_directory_witness :
  @getPosts latin1 empty_disk blogDir = MkIO [ReadDir blogDir] (Ok []).
Proof.
  apply (@getPosts_empty_directory latin1 empty_disk blogDir). reflexivity.
Defined.
